(** * Address mapping and route planner

    A shallow embedding of the state handlers of [src/App.tsx], of the
    selection and route-creation code of [src/components/MapComponent.tsx]
    and of [services/routeService.ts], followed by the properties of the
    address store, the starting point and the route workflow.

    React state is passed explicitly: a handler is a function from the
    state it updates to the new state, together with the calls it makes to
    the outside (alerts, the geocoder, the directions service).  An
    asynchronous handler is split at its [await]: one function for the part
    that runs when the handler is invoked, one for the part that runs when
    the awaited call settles. *)

From Stdlib Require Import Floats.
From stdpp Require Import gmap strings list pretty.

Local Open Scope string_scope.

(** ** JavaScript values *)

Module Js.

(** A JavaScript number is an IEEE 754 binary64 value. *)
Abbreviation number := float.

(** Truthiness of [x?: number]: [undefined], [0], [-0] and [NaN] are
    falsy. *)
Definition truthy_number (x : option number) : bool :=
  match x with
  | None => false
  | Some v => negb (PrimFloat.eqb v 0 || PrimFloat.is_nan v)
  end.

(** Truthiness of a string: only the empty string is falsy. *)
Definition truthy_string (s : string) : bool :=
  match s with
  | EmptyString => false
  | String _ _ => true
  end.

(** Truthiness of [b?: boolean]. *)
Definition truthy_bool (b : option bool) : bool :=
  match b with
  | Some true => true
  | _ => false
  end.

(** [x!] on an optional number: the assertion is erased at run time.
    It is only applied to values already tested truthy; [undefined]
    would reach the callee as a non-number. *)
Definition non_null (x : option number) : number := default PrimFloat.nan x.

Definition lower_char (c : Ascii.ascii) : Ascii.ascii :=
  let n := Ascii.nat_of_ascii c in
  if (65 <=? n)%nat && (n <=? 90)%nat then Ascii.ascii_of_nat (n + 32) else c.

(** [String.prototype.toLowerCase], on strings of ASCII characters: only
    [A] to [Z] are lowered, where JavaScript also lowers the capitals of
    other alphabets. *)
Fixpoint toLowerCase (s : string) : string :=
  match s with
  | EmptyString => EmptyString
  | String c s' => String (lower_char c) (toLowerCase s')
  end.

Fixpoint trimStart (s : string) : string :=
  match s with
  | EmptyString => EmptyString
  | String c s' => if Ascii.is_space c then trimStart s' else s
  end.

(** [String.prototype.trim], on strings of ASCII characters: tab, line
    feed, vertical tab, form feed, carriage return and space are stripped,
    where JavaScript also strips the white space of Unicode (U+00A0 and
    others). *)
Definition trim (s : string) : string :=
  String.rev (trimStart (String.rev (trimStart s))).

(** [Array.prototype.some] and [filter] are [existsb] and [List.filter];
    [s1 === s2] on strings is [String.eqb]. *)
Definition strict_eq (s1 s2 : string) : bool := String.eqb s1 s2.

End Js.

Import Js.

(** ** Data model ([types/index.ts]) *)

Module Address.

Record t := mk {
  id : string;
  businessName : string;
  address : string;
  latitude : option number;
  longitude : option number;
  isSelected : option bool;
  isOnRoute : option bool;
  isDuplicate : option bool;
  isHighlighted : option bool
}.

(** [Partial<Address>]: every property may be missing; a property that is
    present holds a value of the field's type, [undefined] included for
    the optional fields. *)
Record partial := mkPartial {
  p_id : option string;
  p_businessName : option string;
  p_address : option string;
  p_latitude : option (option number);
  p_longitude : option (option number);
  p_isSelected : option (option bool);
  p_isOnRoute : option (option bool);
  p_isDuplicate : option (option bool);
  p_isHighlighted : option (option bool)
}.

Definition no_updates : partial :=
  mkPartial None None None None None None None None None.

(** [{ ...addr, ...updates }] *)
Definition spread (addr : t) (updates : partial) : t :=
  mk (default (id addr) (p_id updates))
     (default (businessName addr) (p_businessName updates))
     (default (address addr) (p_address updates))
     (default (latitude addr) (p_latitude updates))
     (default (longitude addr) (p_longitude updates))
     (default (isSelected addr) (p_isSelected updates))
     (default (isOnRoute addr) (p_isOnRoute updates))
     (default (isDuplicate addr) (p_isDuplicate updates))
     (default (isHighlighted addr) (p_isHighlighted updates)).

(** [{ ...addr, latitude: la, longitude: lo }] *)
Definition with_coordinates (la lo : option number) (addr : t) : t :=
  mk (id addr) (businessName addr) (address addr) la lo
     (isSelected addr) (isOnRoute addr) (isDuplicate addr) (isHighlighted addr).

Definition with_isSelected (v : option bool) (addr : t) : t :=
  mk (id addr) (businessName addr) (address addr) (latitude addr) (longitude addr)
     v (isOnRoute addr) (isDuplicate addr) (isHighlighted addr).

Definition with_isOnRoute (v : option bool) (addr : t) : t :=
  mk (id addr) (businessName addr) (address addr) (latitude addr) (longitude addr)
     (isSelected addr) v (isDuplicate addr) (isHighlighted addr).

Definition with_isDuplicate (v : option bool) (addr : t) : t :=
  mk (id addr) (businessName addr) (address addr) (latitude addr) (longitude addr)
     (isSelected addr) (isOnRoute addr) v (isHighlighted addr).

Definition with_isHighlighted (v : option bool) (addr : t) : t :=
  mk (id addr) (businessName addr) (address addr) (latitude addr) (longitude addr)
     (isSelected addr) (isOnRoute addr) (isDuplicate addr) v.

(** [addr.latitude && addr.longitude] used as a condition. *)
Definition has_coordinates (addr : t) : bool :=
  truthy_number (latitude addr) && truthy_number (longitude addr).

(** [!addr.latitude || !addr.longitude] *)
Definition lacks_coordinates (addr : t) : bool :=
  negb (truthy_number (latitude addr)) || negb (truthy_number (longitude addr)).

End Address.

Module StartingPoint.

Record t := mk {
  address : string;
  latitude : option number;
  longitude : option number;
  isValid : bool
}.

End StartingPoint.

Record LatLng := mkLatLng { lat : number; lng : number }.

(** [google.maps.DirectionsResult], as far as the program reads it: the
    legs of the first route and its waypoint order. *)
Record DirectionsLeg := mkLeg {
  distance_value : option number;
  duration_value : option number
}.

Record DirectionsResult := mkDirections {
  legs : list DirectionsLeg;
  waypoint_order : list nat
}.

(** ** Duplicate detection ([detectDuplicates] in App.tsx) *)

Definition normalized_key (addr : Address.t) : string :=
  trim (toLowerCase (Address.address addr)).

(** One iteration of the [forEach]: create the group of the key when it is
    missing, then push the record on it. *)
Definition group_push (addressMap : gmap string (list Address.t)) (addr : Address.t)
    : gmap string (list Address.t) :=
  let key := normalized_key addr in
  let addressMap1 :=
    match addressMap !! key with
    | None => <[key := []]> addressMap
    | Some _ => addressMap
    end in
  alter (λ group, (group ++ [addr])%list) key addressMap1.

Definition build_addressMap (addressList : list Address.t) : gmap string (list Address.t) :=
  foldl group_push ∅ addressList.

(** [addressMap.get(key)!.length > 1] throws a TypeError when the key is
    missing: the result is [None] then. *)
Definition detectDuplicates (addressList : list Address.t) : option (list Address.t) :=
  let addressMap := build_addressMap addressList in
  mapM (λ addr,
          group ← addressMap !! normalized_key addr;
          Some (Address.with_isDuplicate (Some (1 <? length group)%nat) addr))
       addressList.

(** ** Application state (the [useState] cells of [App]) *)

Record AppState := mkApp {
  addresses : list Address.t;
  isGeocoding : bool;
  startingPoint : StartingPoint.t;
  isGeocodingStart : bool;
  isCreatingRoute : bool;
  hasRoute : bool;
  currentRoute : option DirectionsResult;
  mapKey : nat
}.

Definition setAddresses (f : list Address.t → list Address.t) (st : AppState) : AppState :=
  mkApp (f (addresses st)) (isGeocoding st) (startingPoint st) (isGeocodingStart st)
        (isCreatingRoute st) (hasRoute st) (currentRoute st) (mapKey st).

Definition setIsGeocoding (b : bool) (st : AppState) : AppState :=
  mkApp (addresses st) b (startingPoint st) (isGeocodingStart st)
        (isCreatingRoute st) (hasRoute st) (currentRoute st) (mapKey st).

Definition setStartingPoint (f : StartingPoint.t → StartingPoint.t) (st : AppState) : AppState :=
  mkApp (addresses st) (isGeocoding st) (f (startingPoint st)) (isGeocodingStart st)
        (isCreatingRoute st) (hasRoute st) (currentRoute st) (mapKey st).

Definition setIsGeocodingStart (b : bool) (st : AppState) : AppState :=
  mkApp (addresses st) (isGeocoding st) (startingPoint st) b
        (isCreatingRoute st) (hasRoute st) (currentRoute st) (mapKey st).

Definition setIsCreatingRoute (b : bool) (st : AppState) : AppState :=
  mkApp (addresses st) (isGeocoding st) (startingPoint st) (isGeocodingStart st)
        b (hasRoute st) (currentRoute st) (mapKey st).

Definition setHasRoute (b : bool) (st : AppState) : AppState :=
  mkApp (addresses st) (isGeocoding st) (startingPoint st) (isGeocodingStart st)
        (isCreatingRoute st) b (currentRoute st) (mapKey st).

Definition setCurrentRoute (r : option DirectionsResult) (st : AppState) : AppState :=
  mkApp (addresses st) (isGeocoding st) (startingPoint st) (isGeocodingStart st)
        (isCreatingRoute st) (hasRoute st) r (mapKey st).

Definition setMapKey (f : nat → nat) (st : AppState) : AppState :=
  mkApp (addresses st) (isGeocoding st) (startingPoint st) (isGeocodingStart st)
        (isCreatingRoute st) (hasRoute st) (currentRoute st) (f (mapKey st)).

(** The request handed to [directionsService.route]. *)
Record DirectionsRequest := mkRequest {
  origin : LatLng;
  destination : LatLng;
  waypoints : list (LatLng * bool);
  optimizeWaypoints : bool;
  travelMode : string
}.

(** What a handler asks of the outside world. *)
Inductive Call :=
| alert (message : string)
| console_error (message : string)
| geocodeAddress (address : string)
| directions_route (request : DirectionsRequest)
| setDirections (route : DirectionsResult).

(** What [geocodeAddress] settles with: a location, [null], or an exception
    (the API key is missing). *)
Inductive GeocodeOutcome :=
| geocode_found (location : LatLng)
| geocode_null
| geocode_throws.

(** *** Address store handlers *)

(** The state update of [handleFileUpload] and [handleTabDelimitedSubmit],
    given the parsed rows. *)
Definition ingest (parsedAddresses prev : list Address.t) : option (list Address.t) :=
  let combined := (prev ++ parsedAddresses)%list in
  detectDuplicates combined.

Definition handleAddressesParsed (parsedAddresses : list Address.t) (st : AppState)
    : option AppState :=
  next ← ingest parsedAddresses (addresses st);
  Some (setAddresses (λ _, next) st).

Definition handleClearTable (confirmed : bool) (st : AppState) : AppState :=
  if confirmed
  then setHasRoute false (setCurrentRoute None (setAddresses (λ _, []) st))
  else st.

Definition update_address (id : string) (updates : Address.partial) (prev : list Address.t)
    : list Address.t :=
  List.map (λ addr,
              if strict_eq (Address.id addr) id
              then Address.with_isHighlighted (Some false) (Address.spread addr updates)
              else Address.with_isHighlighted (Some false) addr)
           prev.

Definition handleUpdateAddress (id : string) (updates : Address.partial) (st : AppState)
    : AppState :=
  setAddresses (update_address id updates) st.

Definition delete_address (id : string) (prev : list Address.t) : list Address.t :=
  List.filter (λ addr, negb (strict_eq (Address.id addr) id)) prev.

Definition handleDeleteAddress (id : string) (st : AppState) : AppState :=
  setAddresses (delete_address id) st.

(** [prev.map(a => a.id === id ? { ...a, latitude, longitude } : a)] *)
Definition apply_geocode (id : string) (result : LatLng) (prev : list Address.t)
    : list Address.t :=
  List.map (λ a,
              if strict_eq (Address.id a) id
              then Address.with_coordinates (Some (lat result)) (Some (lng result)) a
              else a)
           prev.

(** [handleGeocodeAddress], up to its [await]: [Some text] is the call to
    the geocoder. *)
Definition handleGeocodeAddress_begin (id : string) (st : AppState)
    : AppState * option string :=
  match List.find (λ addr, strict_eq (Address.id addr) id) (addresses st) with
  | None => (st, None)
  | Some address =>
      if negb (truthy_string (Address.address address)) then (st, None)
      else (setIsGeocoding true st, Some (Address.address address))
  end.

(** [handleGeocodeAddress], from its [await] on. *)
Definition handleGeocodeAddress_settle (id : string) (outcome : GeocodeOutcome) (st : AppState)
    : AppState * list Call :=
  match outcome with
  | geocode_found result =>
      (setIsGeocoding false (setAddresses (apply_geocode id result) st), [])
  | geocode_null =>
      (setIsGeocoding false st, [alert "Could not geocode this address."])
  | geocode_throws =>
      (setIsGeocoding false st,
       [console_error "Error geocoding address:"; alert "Error geocoding address."])
  end.

(** The filter of [handleGeocodeAll]. *)
Definition addressesToGeocode (addresses : list Address.t) : list Address.t :=
  List.filter (λ addr, truthy_string (Address.address addr) && Address.lacks_coordinates addr)
              addresses.

(** [handleGeocodeAll], up to its first [await]: the records still to
    geocode, the first of which has been sent to the geocoder. *)
Definition handleGeocodeAll_begin (st : AppState)
    : AppState * list Call * list Address.t :=
  match addressesToGeocode (addresses st) with
  | [] => (st, [alert "No addresses to geocode."], [])
  | addr :: rest =>
      (setIsGeocoding true st, [geocodeAddress (Address.address addr)], addr :: rest)
  end.

(** One turn of the loop of [handleGeocodeAll]: the call for [addr] has
    settled; the rest of the loop is either the next call or the [finally]. *)
Definition handleGeocodeAll_settle (addr : Address.t) (rest : list Address.t)
    (outcome : GeocodeOutcome) (st : AppState) : AppState * list Call * list Address.t :=
  let continue (st1 : AppState) :=
    match rest with
    | [] => (setIsGeocoding false st1, [], [])
    | next :: _ => (st1, [geocodeAddress (Address.address next)], rest)
    end in
  match outcome with
  | geocode_found result => continue (setAddresses (apply_geocode (Address.id addr) result) st)
  | geocode_null => continue st
  | geocode_throws =>
      (setIsGeocoding false st,
       [console_error "Error geocoding addresses:";
        alert "Error geocoding addresses. Please try again."],
       [])
  end.

Definition handleAddressClick (address : Address.t) (st : AppState) : AppState :=
  setAddresses
    (List.map (λ addr,
       Address.with_isHighlighted
         (Some (strict_eq (Address.id addr) (Address.id address))) addr))
    st.

(** [selectedAddresses.some(selected => selected.id === addr.id)] *)
Definition some_selected (selectedAddresses : list Address.t) (addr : Address.t) : bool :=
  existsb (λ selected, strict_eq (Address.id selected) (Address.id addr)) selectedAddresses.

Definition polygon_complete (selectedAddresses prev : list Address.t) : list Address.t :=
  List.map (λ addr,
              Address.with_isHighlighted (Some (some_selected selectedAddresses addr))
                (Address.with_isSelected (Some (some_selected selectedAddresses addr)) addr))
           prev.

Definition handlePolygonComplete (selectedAddresses : list Address.t) (st : AppState)
    : AppState :=
  setAddresses (polygon_complete selectedAddresses) st.

(** The statistics effect of [App]. *)
Record Stats := mkStats { total : nat; geocoded : nat; errors : nat }.

Definition compute_stats (addresses : list Address.t) : Stats :=
  mkStats (length addresses)
          (length (List.filter Address.has_coordinates addresses))
          (length (List.filter
                     (λ addr, truthy_string (Address.address addr)
                              && Address.lacks_coordinates addr)
                     addresses)).

(** [getGeocodingStatus] of AddressTable: [None] is [null]. *)
Inductive GeocodingStatus := status_success | status_pending.

Definition getGeocodingStatus (address : Address.t) : option GeocodingStatus :=
  if negb (truthy_string (Address.address address)) then None
  else if Address.has_coordinates address then Some status_success
  else Some status_pending.

(** *** Starting point handlers *)

Definition handleStartingAddressChange (address : string) (st : AppState) : AppState :=
  setStartingPoint (λ _, StartingPoint.mk address None None false) st.

(** [handleGeocodeStartingPoint], up to its [await]: [Some text] is the
    call to the geocoder. *)
Definition handleGeocodeStartingPoint_begin (st : AppState) : AppState * option string :=
  if negb (truthy_string (StartingPoint.address (startingPoint st))) then (st, None)
  else (setIsGeocodingStart true st, Some (StartingPoint.address (startingPoint st))).

(** [{ ...prev, latitude: result.lat, longitude: result.lng, isValid: true }] *)
Definition located (result : LatLng) (prev : StartingPoint.t) : StartingPoint.t :=
  StartingPoint.mk (StartingPoint.address prev) (Some (lat result)) (Some (lng result)) true.

(** [{ ...prev, isValid: false }] *)
Definition invalidated (prev : StartingPoint.t) : StartingPoint.t :=
  StartingPoint.mk (StartingPoint.address prev) (StartingPoint.latitude prev)
                   (StartingPoint.longitude prev) false.

(** [handleGeocodeStartingPoint], from its [await] on. *)
Definition handleGeocodeStartingPoint_settle (outcome : GeocodeOutcome) (st : AppState)
    : AppState * list Call :=
  match outcome with
  | geocode_found result =>
      (setIsGeocodingStart false (setStartingPoint (located result) st), [])
  | geocode_null =>
      (setIsGeocodingStart false (setStartingPoint invalidated st),
       [alert "Could not geocode starting point address."])
  | geocode_throws =>
      (setIsGeocodingStart false (setStartingPoint invalidated st),
       [console_error "Error geocoding starting point:";
        alert "Error geocoding starting point."])
  end.

(** The mount effect that geocodes the default starting address: the part
    after its [await]; failures are dropped. *)
Definition autoGeocode_settle (outcome : GeocodeOutcome) (st : AppState) : AppState :=
  match outcome with
  | geocode_found result => setStartingPoint (located result) st
  | geocode_null | geocode_throws => st
  end.

Definition handleClearStartingPoint (st : AppState) : AppState :=
  setStartingPoint (λ _, StartingPoint.mk "" None None false) st.

(** *** Route handlers *)

(** The memoised [selectedAddresses] of [App]. *)
Definition selectedAddresses (st : AppState) : list Address.t :=
  List.filter (λ addr, truthy_bool (Address.isSelected addr)) (addresses st).

Definition starting_point_invalid_message : string :=
  "Starting point is invalid or not geocoded.".

Definition no_selection_message : string :=
  "Please select addresses by drawing a polygon on the map.".

Definition waypoint_limit_advice : string :=
  "). Google Maps allows a maximum of 25 waypoints per route. Please reduce the number of selected addresses or split into multiple routes.".

Definition too_many_addresses_message (count : nat) : string :=
  "Too many addresses selected (" +:+ pretty count +:+ waypoint_limit_advice.

Definition too_many_waypoints_message (count : nat) : string :=
  "Too many waypoints selected (" +:+ pretty count +:+ waypoint_limit_advice.

Definition handleCreateRoute (st : AppState) : AppState * list Call :=
  if negb (StartingPoint.isValid (startingPoint st)) then
    (st, [alert starting_point_invalid_message])
  else if (length (selectedAddresses st) =? 0)%nat then
    (st, [alert no_selection_message])
  else if (25 <? length (selectedAddresses st))%nat then
    (st, [alert (too_many_addresses_message (length (selectedAddresses st)))])
  else
    (setIsCreatingRoute true st, []).

Definition handleRouteCreated (route : DirectionsResult) (st : AppState) : AppState :=
  setIsCreatingRoute false
    (setHasRoute true
       (setCurrentRoute (Some route)
          (setAddresses
             (List.map (λ addr, Address.with_isOnRoute (Address.isSelected addr) addr))
             st))).

(** The [onRouteCreationComplete] prop that [App] passes to the map. *)
Definition onRouteCreationComplete (st : AppState) : AppState :=
  setIsCreatingRoute false st.

Definition handleClearRoute (st : AppState) : AppState :=
  setHasRoute false
    (setCurrentRoute None
       (setAddresses (List.map (Address.with_isOnRoute (Some false))) st)).

Definition handleClearPoints (st : AppState) : AppState :=
  setMapKey (λ prev, prev + 1)
    (setHasRoute false
       (setCurrentRoute None
          (setAddresses
             (List.map (λ addr,
                Address.with_isOnRoute (Some false)
                  (Address.with_isSelected (Some false) addr)))
             st))).

(** *** [calculateOptimalRoute] (routeService) *)

(** Up to the call of [directionsService.route]: [inl] is the message of
    the rejection. *)
Definition calculateOptimalRoute_begin (startPoint : LatLng) (waypoints : list LatLng)
    : string + DirectionsRequest :=
  if (length waypoints =? 0)%nat then inl "No waypoints provided"
  else
    let waypointObjects := List.map (λ point, (point, true)) waypoints in
    inr (mkRequest startPoint startPoint waypointObjects true "DRIVING").

(** The callback of [directionsService.route]. *)
Definition calculateOptimalRoute_settle (result : option DirectionsResult) (status : string)
    : string + DirectionsResult :=
  match strict_eq status "OK", result with
  | true, Some route => inr route
  | _, _ => inl ("Directions request failed: " +:+ status)
  end.

(** *** [createRoute] (the route effect of MapComponent) *)

(** The [selectedAddresses] of [createRoute]: the selected records that
    have coordinates. *)
Definition route_stops (addresses : list Address.t) : list Address.t :=
  List.filter (λ addr, truthy_bool (Address.isSelected addr)
                       && truthy_number (Address.latitude addr)
                       && truthy_number (Address.longitude addr))
              addresses.

(** Up to the [await]: [inl] is the message of the exception thrown. *)
Definition createRoute_begin (addresses : list Address.t) (startingPoint : StartingPoint.t)
    : string + DirectionsRequest :=
  let selectedAddresses := route_stops addresses in
  if (length selectedAddresses =? 0)%nat
     || negb (truthy_number (StartingPoint.latitude startingPoint))
     || negb (truthy_number (StartingPoint.longitude startingPoint))
  then inl "No valid addresses or starting point"
  else if (25 <? length selectedAddresses)%nat
  then inl (too_many_waypoints_message (length selectedAddresses))
  else
    let waypoints :=
      List.map (λ addr, mkLatLng (non_null (Address.latitude addr))
                                 (non_null (Address.longitude addr)))
               selectedAddresses in
    calculateOptimalRoute_begin
      (mkLatLng (non_null (StartingPoint.latitude startingPoint))
                (non_null (StartingPoint.longitude startingPoint)))
      waypoints.

(** The [catch] and [finally] of [createRoute], applied to the state of
    [App]. *)
Definition createRoute_failed (message : string) (st : AppState) : AppState * list Call :=
  (onRouteCreationComplete st, [console_error "Error creating route:"; alert message]).

(** The rest of the [try] and the [finally], for a call that came back. *)
Definition createRoute_settle (result : option DirectionsResult) (status : string)
    (st : AppState) : AppState * list Call :=
  match calculateOptimalRoute_settle result status with
  | inr route =>
      (onRouteCreationComplete (handleRouteCreated route st), [setDirections route])
  | inl message => createRoute_failed message st
  end.

(** ** The map component: polygons and the pending calls *)

(** A polygon is the path it was drawn with. *)
Abbreviation Polygon := (list LatLng).

(** The refs of MapComponent that the handlers read: whether the map
    instance is set, whether the directions service and renderer are set
    ([initMap] sets the three), and the two polygons. *)
Record MapRefs := mkRefs {
  mapInstanceRef : bool;
  directionsRef : bool;
  polygonRef : option Polygon;
  pendingPolygonRef : option Polygon
}.

Definition unmounted_refs : MapRefs := mkRefs false false None None.

(** A geocoder call that has not settled, with what its continuation
    closes over. *)
Inductive GeocodeCall :=
| call_for_address (id : string)
| call_for_batch (addr : Address.t) (rest : list Address.t)
| call_for_start (automatic : bool).

(** A directions call that has not settled: the [addresses] prop that
    [createRoute] was started with, and the request it sent. *)
Record RouteCall := mkRouteCall {
  call_addresses : list Address.t;
  call_request : DirectionsRequest
}.

Record System := mkSystem {
  app : AppState;
  refs : MapRefs;
  geocodeCalls : list GeocodeCall;
  routeCalls : list RouteCall
}.

(** What the event loop runs next: a user action, a map callback, the
    run of an effect, or an asynchronous call that settles ([k] is the
    position of the call among the pending ones, which settle in any
    order).  [AddressesParsed] is an import whose rows have been parsed;
    [RouteEffect] is a run of the route effect of MapComponent, which React
    schedules after a render that changed one of its dependencies. *)
Inductive Event :=
| AddressesParsed (parsedAddresses : list Address.t)
| ClearTable (confirmed : bool)
| GeocodeAll
| UpdateAddress (id : string) (updates : Address.partial)
| DeleteAddress (id : string)
| GeocodeAddress (id : string)
| AddressClick (address : Address.t)
| GeocodeSettled (k : nat) (outcome : GeocodeOutcome)
| MapInitialised
| PolygonDrawn (polygon : Polygon)
| AcceptPolygon
| CancelPolygon
| StartingAddressChange (address : string)
| GeocodeStartingPoint
| ClearStartingPoint
| CreateRoute
| RouteEffect
| RouteSettled (k : nat) (result : option DirectionsResult) (status : string)
| ClearRoute
| ClearPoints.

Definition default_starting_address : string :=
  "6691 Frontier Dr, Springfield, VA 22150".

Definition initial_app : AppState :=
  mkApp [] false (StartingPoint.mk default_starting_address None None false)
        false false false None 0.

(** The state after the first render: the mount effect has sent the default
    starting address to the geocoder. *)
Definition initial_system : System :=
  mkSystem initial_app unmounted_refs [call_for_start true] [].

Definition initial_calls : list Call := [geocodeAddress default_starting_address].

Section Geometry.

(** [google.maps.geometry.poly.containsLocation] *)
Variable containsLocation : LatLng → Polygon → bool.

(** The filter of [handleAcceptPolygon]. *)
Definition inside_polygon (polygon : Polygon) (address : Address.t) : bool :=
  if Address.lacks_coordinates address then false
  else
    let point := mkLatLng (non_null (Address.latitude address))
                          (non_null (Address.longitude address)) in
    containsLocation point polygon.

Definition addresses_inside (polygon : Polygon) (addresses : list Address.t)
    : list Address.t :=
  List.filter (inside_polygon polygon) addresses.

(** [handleAcceptPolygon]: the refs afterwards and, when a polygon was
    pending, the argument of [onPolygonComplete]. *)
Definition handleAcceptPolygon (r : MapRefs) (addresses : list Address.t)
    : MapRefs * option (list Address.t) :=
  match pendingPolygonRef r with
  | None => (r, None)
  | Some polygon =>
      if negb (mapInstanceRef r) then (r, None)
      else (mkRefs (mapInstanceRef r) (directionsRef r) (Some polygon) None,
            Some (addresses_inside polygon addresses))
  end.

(** Accepting [polygon] on the store [addresses]: the selection computed
    by the map, handed to [handlePolygonComplete]. *)
Definition select_by_region (polygon : Polygon) (addresses : list Address.t)
    : list Address.t :=
  polygon_complete (addresses_inside polygon addresses) addresses.

Definition with_app (st : AppState) (sys : System) : System :=
  mkSystem st (refs sys) (geocodeCalls sys) (routeCalls sys).

(** One event of the single-threaded event loop.  [None] is an uncaught
    exception. *)
Definition step (ev : Event) (sys : System) : option (System * list Call) :=
  let st := app sys in
  match ev with
  | AddressesParsed parsedAddresses =>
      st1 ← handleAddressesParsed parsedAddresses st;
      Some (with_app st1 sys, [])
  | ClearTable confirmed => Some (with_app (handleClearTable confirmed st) sys, [])
  | GeocodeAll =>
      let '(st1, calls, batch) := handleGeocodeAll_begin st in
      match batch with
      | [] => Some (with_app st1 sys, calls)
      | addr :: rest =>
          Some (mkSystem st1 (refs sys)
                  (geocodeCalls sys ++ [call_for_batch addr rest])%list (routeCalls sys),
                calls)
      end
  | UpdateAddress id updates => Some (with_app (handleUpdateAddress id updates st) sys, [])
  | DeleteAddress id => Some (with_app (handleDeleteAddress id st) sys, [])
  | GeocodeAddress id =>
      match handleGeocodeAddress_begin id st with
      | (st1, None) => Some (with_app st1 sys, [])
      | (st1, Some text) =>
          Some (mkSystem st1 (refs sys)
                  (geocodeCalls sys ++ [call_for_address id])%list (routeCalls sys),
                [geocodeAddress text])
      end
  | AddressClick address => Some (with_app (handleAddressClick address st) sys, [])
  | GeocodeSettled k outcome =>
      match geocodeCalls sys !! k with
      | None => Some (sys, [])
      | Some call =>
          let others := delete k (geocodeCalls sys) in
          match call with
          | call_for_address id =>
              let '(st1, calls) := handleGeocodeAddress_settle id outcome st in
              Some (mkSystem st1 (refs sys) others (routeCalls sys), calls)
          | call_for_batch addr rest =>
              let '(st1, calls, batch) := handleGeocodeAll_settle addr rest outcome st in
              match batch with
              | [] => Some (mkSystem st1 (refs sys) others (routeCalls sys), calls)
              | next :: rest1 =>
                  Some (mkSystem st1 (refs sys)
                          (others ++ [call_for_batch next rest1])%list (routeCalls sys),
                        calls)
              end
          | call_for_start true =>
              Some (mkSystem (autoGeocode_settle outcome st) (refs sys) others
                             (routeCalls sys), [])
          | call_for_start false =>
              let '(st1, calls) := handleGeocodeStartingPoint_settle outcome st in
              Some (mkSystem st1 (refs sys) others (routeCalls sys), calls)
          end
      end
  | MapInitialised =>
      Some (mkSystem st (mkRefs true true (polygonRef (refs sys))
                                (pendingPolygonRef (refs sys)))
                     (geocodeCalls sys) (routeCalls sys), [])
  | PolygonDrawn polygon =>
      Some (mkSystem st (mkRefs (mapInstanceRef (refs sys)) (directionsRef (refs sys))
                                (polygonRef (refs sys)) (Some polygon))
                     (geocodeCalls sys) (routeCalls sys), [])
  | AcceptPolygon =>
      match handleAcceptPolygon (refs sys) (addresses st) with
      | (r1, None) => Some (mkSystem st r1 (geocodeCalls sys) (routeCalls sys), [])
      | (r1, Some selected) =>
          Some (mkSystem (handlePolygonComplete selected st) r1
                         (geocodeCalls sys) (routeCalls sys), [])
      end
  | CancelPolygon =>
      Some (mkSystem st (mkRefs (mapInstanceRef (refs sys)) (directionsRef (refs sys))
                                (polygonRef (refs sys)) None)
                     (geocodeCalls sys) (routeCalls sys), [])
  | StartingAddressChange address =>
      Some (with_app (handleStartingAddressChange address st) sys, [])
  | GeocodeStartingPoint =>
      match handleGeocodeStartingPoint_begin st with
      | (st1, None) => Some (with_app st1 sys, [])
      | (st1, Some text) =>
          Some (mkSystem st1 (refs sys)
                  (geocodeCalls sys ++ [call_for_start false])%list (routeCalls sys),
                [geocodeAddress text])
      end
  | ClearStartingPoint => Some (with_app (handleClearStartingPoint st) sys, [])
  | CreateRoute =>
      let '(st1, calls) := handleCreateRoute st in
      Some (with_app st1 sys, calls)
  | RouteEffect =>
      if negb (isCreatingRoute st) || negb (directionsRef (refs sys)) then Some (sys, [])
      else
        match createRoute_begin (addresses st) (startingPoint st) with
        | inl message =>
            let '(st1, calls) := createRoute_failed message st in
            Some (with_app st1 sys, calls)
        | inr request =>
            Some (mkSystem st (refs sys) (geocodeCalls sys)
                    (routeCalls sys ++ [mkRouteCall (addresses st) request])%list,
                  [directions_route request])
        end
  | RouteSettled k result status =>
      match routeCalls sys !! k with
      | None => Some (sys, [])
      | Some _ =>
          let '(st1, calls) := createRoute_settle result status st in
          Some (mkSystem st1 (refs sys) (geocodeCalls sys) (delete k (routeCalls sys)),
                calls)
      end
  | ClearRoute => Some (with_app (handleClearRoute st) sys, [])
  | ClearPoints =>
      Some (mkSystem (handleClearPoints st) unmounted_refs
                     (geocodeCalls sys) (routeCalls sys), [])
  end.

(** A run of the event loop: the events in order, the calls collected. *)
Fixpoint run (events : list Event) (sys : System) : option (System * list Call) :=
  match events with
  | [] => Some (sys, [])
  | ev :: events' =>
      '(sys1, calls1) ← step ev sys;
      '(sys2, calls2) ← run events' sys1;
      Some (sys2, (calls1 ++ calls2)%list)
  end.

End Geometry.

(** The workflow state of the route machine, read off the two flags. *)
Inductive Workflow := Idle | Requested | Active.

Definition workflow (st : AppState) : Workflow :=
  if isCreatingRoute st then Requested
  else if hasRoute st then Active
  else Idle.

(** The records that the marker effect of MapComponent draws. *)
Definition geocodedAddresses (addresses : list Address.t) : list Address.t :=
  List.filter Address.has_coordinates addresses.

(** ** Sequences of store operations *)

Inductive StoreOp :=
| op_ingest (parsedAddresses : list Address.t)
| op_update (id : string) (updates : Address.partial)
| op_delete (id : string).

Definition apply_op (op : StoreOp) (prev : list Address.t) : option (list Address.t) :=
  match op with
  | op_ingest parsedAddresses => ingest parsedAddresses prev
  | op_update id updates => Some (update_address id updates prev)
  | op_delete id => Some (delete_address id prev)
  end.

Fixpoint apply_ops (ops : list StoreOp) (store : list Address.t) : option (list Address.t) :=
  match ops with
  | [] => Some store
  | op :: ops' => store1 ← apply_op op store; apply_ops ops' store1
  end.

(** ** Vocabulary of the statements *)

(** The records of [store] whose normalized key is [key]. *)
Definition sharing_key (key : string) (store : list Address.t) : list Address.t :=
  List.filter (λ a, strict_eq (normalized_key a) key) store.

(** The fields that identify and locate a record. *)
Definition same_data (old new : Address.t) : Prop :=
  Address.id new = Address.id old
  ∧ Address.businessName new = Address.businessName old
  ∧ Address.address new = Address.address old
  ∧ Address.latitude new = Address.latitude old
  ∧ Address.longitude new = Address.longitude old.

(** [new] is [old] with the present properties of [updates] written over
    it; [isHighlighted] is left out. *)
Definition patch_applied (updates : Address.partial) (old new : Address.t) : Prop :=
  Address.id new = default (Address.id old) (Address.p_id updates)
  ∧ Address.businessName new
    = default (Address.businessName old) (Address.p_businessName updates)
  ∧ Address.address new = default (Address.address old) (Address.p_address updates)
  ∧ Address.latitude new = default (Address.latitude old) (Address.p_latitude updates)
  ∧ Address.longitude new = default (Address.longitude old) (Address.p_longitude updates)
  ∧ Address.isSelected new = default (Address.isSelected old) (Address.p_isSelected updates)
  ∧ Address.isOnRoute new = default (Address.isOnRoute old) (Address.p_isOnRoute updates)
  ∧ Address.isDuplicate new
    = default (Address.isDuplicate old) (Address.p_isDuplicate updates).

(** [new] is [old] up to [isHighlighted]. *)
Definition same_but_highlight (old new : Address.t) : Prop :=
  same_data old new
  ∧ Address.isSelected new = Address.isSelected old
  ∧ Address.isOnRoute new = Address.isOnRoute old
  ∧ Address.isDuplicate new = Address.isDuplicate old.

(** ["s" occurs in "t"]. *)
Definition occurs_in (s t : string) : Prop :=
  ∃ before after, t = before +:+ s +:+ after.

(** A rectangle test for the examples: the point lies between two corners
    of the path. *)
Definition box_contains (point : LatLng) (polygon : Polygon) : bool :=
  existsb (λ lo, existsb (λ hi,
     PrimFloat.leb (lat lo) (lat point) && PrimFloat.leb (lat point) (lat hi)
     && PrimFloat.leb (lng lo) (lng point) && PrimFloat.leb (lng point) (lng hi))
     polygon) polygon.

(** ** Import parsers ([services/csvParser.ts]) and their callers *)

(** [String.prototype.split] with a one-character separator: the segments
    between the separators, at least one. *)
Fixpoint js_split (separator : Ascii.ascii) (s : string) : list string :=
  match s with
  | EmptyString => [EmptyString]
  | String c s' =>
      if Ascii.eqb c separator then EmptyString :: js_split separator s'
      else
        match js_split separator s' with
        | [] => [String c EmptyString]
        | segment :: segments => String c segment :: segments
        end
  end.

Definition tab_char : Ascii.ascii := Ascii.ascii_of_nat 9.
Definition newline_char : Ascii.ascii := Ascii.ascii_of_nat 10.

Definition dash_char : Ascii.ascii := Ascii.ascii_of_nat 45.

(** No dash occurs in [s]. *)
Fixpoint dash_free (s : string) : Prop :=
  match s with
  | EmptyString => True
  | String c s' => c ≠ dash_char ∧ dash_free s'
  end.

(** The id template of the two parsers: a prefix, the reading of
    [Date.now()] and the index of the row. *)
Definition row_id (prefix : string) (now : N) (index : nat) : string :=
  prefix +:+ pretty now +:+ "-" +:+ pretty index.

(** [addr.businessName || addr.address], the filter of both parsers. *)
Definition has_content (addr : Address.t) : bool :=
  truthy_string (Address.businessName addr) || truthy_string (Address.address addr).

(** The callback that [parseTabDelimited] maps over the lines; [now] is
    what [Date.now()] reads when the line is mapped. *)
Definition tab_row (now : N) (index : nat) (line : string) : Address.t :=
  let fields := js_split tab_char line in
  let businessName := nth 0 fields "" in
  let address := nth 1 fields "" in
  Address.mk (row_id "tab-" now index) (trim businessName) (trim address)
             None None (Some false) (Some false) (Some false) (Some false).

(** [parseTabDelimited]; [clock index] is the reading of [Date.now()] for
    the line at [index]. *)
Definition parseTabDelimited (clock : nat → N) (text : string) : list Address.t :=
  let lines := js_split newline_char (trim text) in
  List.filter has_content (imap (λ index line, tab_row (clock index) index line) lines).

(** [handleSubmit] of TabDelimitedModal: [Some text] is the call of
    [onSubmit]. *)
Definition modal_handleSubmit (text : string) : option string :=
  if truthy_string (trim text) then Some text else None.

(** [handleTabDelimitedSubmit] of [App]. *)
Definition handleTabDelimitedSubmit (clock : nat → N) (text : string) (st : AppState)
    : option AppState :=
  let parsedAddresses := parseTabDelimited clock text in
  handleAddressesParsed parsedAddresses st.

(** [row[k1] || row[k2] || ... || ''] on a row that Papa Parse read with a
    header: a column is a string or is missing. *)
Fixpoint first_truthy (columns : list string) (row : gmap string string) : string :=
  match columns with
  | [] => ""
  | column :: columns' =>
      match row !! column with
      | Some value => if truthy_string value then value else first_truthy columns' row
      | None => first_truthy columns' row
      end
  end.

Definition business_name_columns : list string :=
  ["Business name"; "business name"; "Business Name"; "name"; "Name";
   "business"; "Business"; "company"; "Company"].

Definition address_columns : list string :=
  ["address"; "Address"; "location"; "Location"; "street"; "Street"; "street_address"].

(** The callback that [parseCSV] maps over the parsed rows. *)
Definition csv_row (now : N) (index : nat) (row : gmap string string) : Address.t :=
  let businessName := first_truthy business_name_columns row in
  let address := first_truthy address_columns row in
  Address.mk (row_id "csv-" now index) (trim businessName) (trim address)
             None None (Some false) (Some false) (Some false) (Some false).

(** The [complete] callback of [parseCSV], on the rows that Papa Parse
    hands over: the addresses the promise resolves with. *)
Definition parseCSV_complete (clock : nat → N) (data : list (gmap string string))
    : list Address.t :=
  List.filter has_content (imap (λ index row, csv_row (clock index) index row) data).

(** [handleFileUpload] of [App], from its [await] on: the promise of
    [parseCSV] resolved with rows ([inr]) or was rejected ([inl]). *)
Definition handleFileUpload_settle (parsed : string + list Address.t) (st : AppState)
    : option (AppState * list Call) :=
  match parsed with
  | inr parsedAddresses =>
      st1 ← handleAddressesParsed parsedAddresses st;
      Some (st1, [])
  | inl _ =>
      Some (st, [console_error "Error parsing CSV:";
                 alert "Error parsing CSV file. Please check the format."])
  end.

(** ** The itinerary ([handleDownloadRoute], [generateRoutePDF]) *)

(** [s?.length > 0 ? s : '-'] *)
Definition or_dash (s : string) : string :=
  if (0 <? String.length s)%nat then s else "-".

(** The body of the stops table that [generateRoutePDF] hands to
    [autoTable]: one row per waypoint in the optimized order, then the
    return to the start.  [selectedAddresses[index]] is [undefined] when the
    index is out of range, and reading its [businessName] throws: [None]. *)
Definition route_table (selectedAddresses : list Address.t) (startingPoint : StartingPoint.t)
    (route : DirectionsResult) : option (list (string * string * string)) :=
  let waypointOrder := waypoint_order route in
  let orderedAddresses := List.map (λ index, selectedAddresses !! index) waypointOrder in
  tableBody ← mapM (λ cell : option (string * string * string), cell)
                   (imap (λ idx (address : option Address.t),
                            a ← address;
                            Some (pretty (idx + 1)%nat,
                                  or_dash (Address.businessName a),
                                  or_dash (Address.address a)))
                         orderedAddresses);
  Some (tableBody
        ++ [(pretty (length orderedAddresses + 1)%nat, "Return to Start",
             or_dash (StartingPoint.address startingPoint))])%list.

(** [handleDownloadRoute]: the alert it raises, or the table of the
    document it saves.  The two totals, numbers formatted as text, are left
    out. *)
Definition handleDownloadRoute (st : AppState) : string + list (string * string * string) :=
  match currentRoute st with
  | None => inl "No route available to download."
  | Some route =>
      if negb (StartingPoint.isValid (startingPoint st))
      then inl "No route available to download."
      else
        match route_table (selectedAddresses st) (startingPoint st) route with
        | Some tableBody => inr tableBody
        | None => inl "Error generating PDF. Please try again."
        end
  end.

(** ** Markers (the marker effect of MapComponent) *)

Record Marker := mkMarker {
  marker_position : LatLng;
  marker_title : string;
  marker_color : string;
  marker_size : nat
}.

Definition route_green : string := "#16a34a".
Definition selected_blue : string := "#2563eb".
Definition regular_red : string := "#dc2626".

Definition marker_of (address : Address.t) : Marker :=
  let '(iconColor, iconSize) :=
    if truthy_bool (Address.isOnRoute address) then (route_green, 7%nat)
    else if truthy_bool (Address.isSelected address) then (selected_blue, 6%nat)
    else (regular_red, 6%nat) in
  mkMarker (mkLatLng (non_null (Address.latitude address))
                     (non_null (Address.longitude address)))
           (Address.businessName address) iconColor iconSize.

(** The markers that the effect leaves on the map: none while the map
    instance is not set or [isMapLoaded] is false (the effect returns at
    once), one per record with coordinates otherwise. *)
Definition markers (r : MapRefs) (isMapLoaded : bool) (addresses : list Address.t)
    : list Marker :=
  if negb (mapInstanceRef r) || negb isMapLoaded then []
  else List.map marker_of (geocodedAddresses addresses).

(** The statistics that TableControls computes for its buttons. *)
Definition errorRows (addresses : list Address.t) : nat :=
  length (List.filter
            (λ addr, truthy_string (Address.address addr) && Address.lacks_coordinates addr)
            addresses).

(** The geocode-all button of TableControls is disabled. *)
Definition geocode_all_disabled (st : AppState) : bool :=
  (errorRows (addresses st) =? 0)%nat || isGeocoding st.

(** The create-route button of MapControls is disabled. *)
Definition create_route_disabled (st : AppState) : bool :=
  negb (StartingPoint.isValid (startingPoint st))
  || negb (0 <? length (selectedAddresses st))%nat
  || isCreatingRoute st.

(** The records with neither an address text nor coordinates. *)
Definition blank_rows (addresses : list Address.t) : list Address.t :=
  List.filter (λ addr, negb (truthy_string (Address.address addr))
                       && Address.lacks_coordinates addr)
              addresses.

(** A whole run of the loop of [handleGeocodeAll] when nothing else
    touches the state in between: the calls settle with [outcomes] in
    order.  The result is the state, the calls made after the first one and
    the records left when the outcomes run out. *)
Fixpoint geocodeAll_turns (batch : list Address.t) (outcomes : list GeocodeOutcome)
    (st : AppState) : AppState * list Call * list Address.t :=
  match batch, outcomes with
  | addr :: rest, outcome :: outcomes' =>
      let '(st1, calls, batch1) := handleGeocodeAll_settle addr rest outcome st in
      let '(st2, calls2, batch2) := geocodeAll_turns batch1 outcomes' st1 in
      (st2, (calls ++ calls2)%list, batch2)
  | _, _ => (st, [], batch)
  end.

(** ** Example data *)

Definition unflagged (id businessName address : string) : Address.t :=
  Address.mk id businessName address None None
             (Some false) (Some false) (Some false) (Some false).

Definition acme : Address.t := unflagged "tab-1-0" "Acme" "1 Main St".
Definition acme_again : Address.t := unflagged "tab-1-1" "acme" "1 MAIN ST".
Definition bolt : Address.t := unflagged "tab-1-2" "Bolt" "9 Oak Ave".

Definition acme_location : LatLng := mkLatLng 38.5 (-77.5).
Definition bolt_location : LatLng := mkLatLng 38.75 (-77.25).
Definition depot_location : LatLng := mkLatLng 38.625 (-77.125).

(** A rectangle around both records, and one around [bolt] only. *)
Definition wide_box : Polygon := [mkLatLng 38 (-78); mkLatLng 39 (-77)].
Definition narrow_box : Polygon := [mkLatLng 38.625 (-77.375); mkLatLng 39 (-77)].

Definition some_route : DirectionsResult :=
  mkDirections [mkLeg (Some 1200%float) (Some 300%float);
                mkLeg (Some 800%float) (Some 240%float)] [0%nat].

(** Two records are imported and geocoded, the default starting address is
    located, and a polygon around both records is accepted. *)
Definition both_selected : list Event :=
  [ AddressesParsed [acme; bolt];
    GeocodeSettled 0 (geocode_found depot_location);
    GeocodeAddress "tab-1-0"; GeocodeSettled 0 (geocode_found acme_location);
    GeocodeAddress "tab-1-2"; GeocodeSettled 0 (geocode_found bolt_location);
    MapInitialised; PolygonDrawn wide_box; AcceptPolygon ].

(** A route is requested for both records; while the directions call is
    pending a second polygon is accepted, which keeps [bolt] only, and the
    route effect runs again for the new selection. *)
Definition selection_changed_while_pending : list Event :=
  (both_selected
   ++ [ CreateRoute; RouteEffect;
        PolygonDrawn narrow_box; AcceptPolygon; RouteEffect ])%list.

(** The starting point is sent to the geocoder, edited while the call is
    pending, and the call then succeeds. *)
Definition edit_while_geocoding : list Event :=
  [ GeocodeStartingPoint;
    StartingAddressChange "1 Main St";
    GeocodeSettled 1 (geocode_found depot_location) ].

(** The records of the examples once geocoded, [acme] highlighted by a
    click on its marker. *)
Definition acme_located : Address.t :=
  Address.with_coordinates (Some 38.5%float) (Some (-77.5)%float) acme.
Definition bolt_located : Address.t :=
  Address.with_coordinates (Some 38.75%float) (Some (-77.25)%float) bolt.
Definition acme_highlighted : Address.t :=
  Address.with_isHighlighted (Some true) acme.

(** Twenty-six selected records and a located starting point. *)
Definition crowd : list Address.t :=
  List.map (λ n, Address.mk ("csv-1-" +:+ pretty n) "Shop" "5 Elm St"
                            (Some 38.5%float) (Some (-77.5)%float)
                            (Some true) (Some false) (Some true) (Some true))
           (seq 0 26).

Definition crowded : AppState :=
  mkApp crowd false
        (StartingPoint.mk default_starting_address
                          (Some 38.625%float) (Some (-77.125)%float) true)
        false false false None 0.

(** A record geocoded onto the equator. *)
Definition on_equator : Address.t :=
  Address.with_coordinates (Some 0%float) (Some (-77.5)%float) acme.

(** The system that a run of the event loop from the first render leaves;
    the rectangle test stands for the geometry library. *)
Definition system_after (events : list Event) : System :=
  match run box_contains events initial_system with
  | Some (sys, _) => sys
  | None => initial_system
  end.

(** A route for the two selected records has arrived and, with that route
    on record, another route is requested: its directions call is
    pending. *)
Definition rerequest_from_active : list Event :=
  (both_selected
   ++ [ CreateRoute; RouteEffect; RouteSettled 0 (Some some_route) "OK";
        CreateRoute; RouteEffect ])%list.

(** A directions call is pending for the two selected records. *)
Definition route_pending : System :=
  system_after (both_selected ++ [CreateRoute; RouteEffect])%list.

(** A paste of two lines, and a clock that does not tick during a parse. *)
Definition pasted_text : string :=
  "Acme" +:+ String tab_char "1 Main St"
  +:+ String newline_char ("acme" +:+ String tab_char "1 MAIN ST").

Definition steady_clock (now : N) : nat → N := λ _, now.

(** Two rows of a file whose header reads [Name], [Address], [Phone]. *)
Definition csv_data : list (gmap string string) :=
  [ {[ "Name" := "Acme"; "Address" := " 1 Main St "; "Phone" := "555-0100" ]};
    {[ "Name" := ""; "Address" := ""; "Phone" := "555-0101" ]} ].

(** Event kinds that may change the ids in the store: an import must bring
    ids that are new, an edit must not patch the id. *)
Definition keeps_ids_unique (ev : Event) (sys : System) : Prop :=
  match ev with
  | AddressesParsed parsedAddresses =>
      NoDup (List.map Address.id (addresses (app sys) ++ parsedAddresses)%list)
  | UpdateAddress _ updates => Address.p_id updates = None
  | _ => True
  end.

(** [hasRoute] is set exactly when a route is on record. *)
Definition route_consistent (st : AppState) : Prop :=
  hasRoute st = match currentRoute st with Some _ => true | None => false end.

(** Both records are selected and the starting point is located. *)
Definition ready : AppState := app (system_after both_selected).

(** The state once the route for both records has arrived, the second
    record first in the optimized order. *)
Definition swapped_route : DirectionsResult :=
  mkDirections [mkLeg (Some 1200%float) (Some 300%float)] [1%nat; 0%nat].

Definition routed : AppState := handleRouteCreated swapped_route ready.

(** * Properties *)

(** ** Lists *)

Lemma Forall2_map_elements {A : Type} (R : A → A → Prop) (f : A → A) (l : list A) :
  (∀ x, In x l → R x (f x)) → Forall2 R l (List.map f l).
Proof.
  induction l as [|x l IH]; intros HR; simpl.
  - constructor.
  - constructor.
    + apply HR. now left.
    + apply IH. intros y Hy. apply HR. now right.
Qed.

Lemma Forall2_map_all {A : Type} (R : A → A → Prop) (f : A → A) (l : list A) :
  (∀ x, R x (f x)) → Forall2 R l (List.map f l).
Proof. intros HR. apply Forall2_map_elements. auto. Qed.

Lemma strict_eq_true (s1 s2 : string) : strict_eq s1 s2 = true ↔ s1 = s2.
Proof. unfold strict_eq. apply String.eqb_eq. Qed.

Lemma strict_eq_false (s1 s2 : string) : strict_eq s1 s2 = false ↔ s1 ≠ s2.
Proof. unfold strict_eq. apply String.eqb_neq. Qed.

(** Records of a store with unique ids are told apart by their id. *)
Lemma unique_id_determines (store : list Address.t) (a b : Address.t) :
  NoDup (List.map Address.id store) →
  In a store → In b store → Address.id a = Address.id b → a = b.
Proof.
  induction store as [|x store IH]; simpl; intros Hnd Ha Hb Hid.
  - contradiction.
  - apply NoDup_cons in Hnd as [Hx Hnd].
    destruct Ha as [-> | Ha], Hb as [-> | Hb]; trivial.
    + exfalso. apply Hx. rewrite Hid. apply list_elem_of_In, in_map. exact Hb.
    + exfalso. apply Hx. rewrite <- Hid. apply list_elem_of_In, in_map. exact Ha.
    + now apply IH.
Qed.

(** ** Duplicate groups *)

Lemma group_push_lookup (m : gmap string (list Address.t)) (a : Address.t) (k : string) :
  group_push m a !! k
  = if decide (normalized_key a = k)
    then Some (default [] (m !! k) ++ [a])%list
    else m !! k.
Proof.
  unfold group_push. case_decide as Hk.
  - subst k. destruct (m !! normalized_key a) as [g|] eqn:Hm.
    + rewrite lookup_alter_eq, Hm. reflexivity.
    + rewrite lookup_alter_eq, lookup_insert_eq. reflexivity.
  - rewrite lookup_alter_ne by exact Hk.
    destruct (m !! normalized_key a); [reflexivity|].
    now rewrite lookup_insert_ne.
Qed.

Lemma foldl_group_push_lookup (l : list Address.t) :
  ∀ (m : gmap string (list Address.t)) (k : string),
    foldl group_push m l !! k
    = match sharing_key k l with
      | [] => m !! k
      | g => Some (default [] (m !! k) ++ g)%list
      end.
Proof.
  induction l as [|a l IH]; intros m k; simpl.
  - reflexivity.
  - rewrite IH, group_push_lookup. unfold sharing_key at 2. simpl.
    fold (sharing_key k l).
    destruct (strict_eq (normalized_key a) k) eqn:E.
    + apply strict_eq_true in E. rewrite decide_True by exact E. simpl.
      destruct (sharing_key k l); [reflexivity|].
      now rewrite <- app_assoc.
    + apply strict_eq_false in E. rewrite decide_False by exact E.
      reflexivity.
Qed.

Lemma build_addressMap_lookup (l : list Address.t) (k : string) :
  build_addressMap l !! k
  = match sharing_key k l with
    | [] => None
    | g => Some g
    end.
Proof.
  unfold build_addressMap. rewrite foldl_group_push_lookup, lookup_empty.
  reflexivity.
Qed.

Lemma sharing_key_own (l : list Address.t) (a : Address.t) :
  In a l → In a (sharing_key (normalized_key a) l).
Proof.
  intros Ha. apply filter_In. split; [exact Ha|]. now apply strict_eq_true.
Qed.

(** [detectDuplicates] never throws, and flags a record exactly when its
    group has more than one member. *)
Lemma detectDuplicates_flags (l : list Address.t) :
  detectDuplicates l
  = Some (List.map
            (λ a, Address.with_isDuplicate
                    (Some (1 <? length (sharing_key (normalized_key a) l))%nat) a)
            l).
Proof.
  unfold detectDuplicates. apply mapM_Some_2.
  apply Forall2_map_elements with
    (R := λ x y, (build_addressMap l !! normalized_key x
                  ≫= λ group, Some (Address.with_isDuplicate
                                      (Some (1 <? length group)%nat) x)) = Some y).
  intros a Ha. rewrite build_addressMap_lookup.
  pose proof (sharing_key_own l a Ha) as Hown.
  destruct (sharing_key (normalized_key a) l); [contradiction|reflexivity].
Qed.

Lemma sharing_key_with_isDuplicate (k : string) (f : Address.t → option bool)
    (l : list Address.t) :
  length (sharing_key k (List.map (λ a, Address.with_isDuplicate (f a) a) l))
  = length (sharing_key k l).
Proof.
  induction l as [|a l IH]; simpl; [reflexivity|].
  unfold sharing_key in *. simpl.
  change (normalized_key (Address.with_isDuplicate (f a) a)) with (normalized_key a).
  destruct (strict_eq (normalized_key a) k); simpl; now rewrite IH.
Qed.

Example normalized_key_acme_again : normalized_key acme_again = "1 main st".
Proof. reflexivity. Qed.

Example trim_both_ends : trim (toLowerCase "  9 Oak  Ave ") = "9 oak  ave".
Proof. reflexivity. Qed.

(** The import of two spellings of one address flags both records. *)
Example ingest_two_spellings :
  ingest [acme; acme_again] []
  = Some [Address.with_isDuplicate (Some true) acme;
          Address.with_isDuplicate (Some true) acme_again].
Proof. vm_compute. reflexivity. Qed.

Example delete_keeps_the_flag :
  apply_ops [op_ingest [acme; acme_again]; op_delete "tab-1-1"] []
  = Some [Address.with_isDuplicate (Some true) acme].
Proof. vm_compute. reflexivity. Qed.

(** ** C2: duplicate flags *)

Lemma delete_address_keeps (id : string) (prev : list Address.t) (addr : Address.t) :
  In addr (delete_address id prev) → In addr prev ∧ Address.id addr ≠ id.
Proof.
  unfold delete_address. intros [Hin Hid]%filter_In. split; [exact Hin|].
  apply strict_eq_false. now apply negb_true_iff.
Qed.

(** C2, as the code has it: every ingest recomputes the flags over the
    whole store, so that right after it a record is flagged iff at least
    two records share its normalized key; update and delete do not
    recompute them: delete keeps each remaining record as it was, update
    leaves [isDuplicate] as it was unless the patch itself carries one. *)
Theorem duplicate_flags_recomputed_on_ingest (prev parsedAddresses : list Address.t) :
  (∃ store,
      ingest parsedAddresses prev = Some store
      ∧ Forall2 same_data (prev ++ parsedAddresses)%list store
      ∧ ∀ addr, In addr store →
          (Address.isDuplicate addr = Some true
           ↔ (2 ≤ length (sharing_key (normalized_key addr) store))%nat))
  ∧ (∀ id addr, In addr (delete_address id prev) → In addr prev)
  ∧ (∀ id updates,
        Forall2 (λ old new,
                   Address.isDuplicate new
                   = if strict_eq (Address.id old) id
                     then default (Address.isDuplicate old) (Address.p_isDuplicate updates)
                     else Address.isDuplicate old)
                prev (update_address id updates prev)).
Proof.
  split; [|split].
  - unfold ingest. rewrite detectDuplicates_flags.
    eexists. split; [reflexivity|]. split.
    + apply Forall2_map_all. intros a. repeat split.
    + intros addr [a [<- Ha]]%in_map_iff.
      rewrite sharing_key_with_isDuplicate.
      change (normalized_key (Address.with_isDuplicate _ a)) with (normalized_key a).
      simpl. split.
      * intros [= Hlt]. apply Nat.ltb_lt in Hlt. lia.
      * intros Hle. f_equal. apply Nat.ltb_lt. lia.
  - intros id addr Hin. now apply delete_address_keeps in Hin.
  - intros id updates. unfold update_address. apply Forall2_map_all.
    intros a. destruct (strict_eq (Address.id a) id); reflexivity.
Qed.

Lemma duplicate_flags_recomputed_on_ingest_witness :
  ∃ store,
    ingest [acme_again] [acme] = Some store
    ∧ ∀ addr, In addr store → Address.isDuplicate addr = Some true.
Proof.
  destruct (duplicate_flags_recomputed_on_ingest [acme] [acme_again])
    as [[store [Hstore [_ Hflag]]] _].
  exists store. split; [exact Hstore|].
  intros addr Hin. apply (Hflag addr Hin).
  vm_compute in Hstore. injection Hstore as <-.
  destruct Hin as [<- | [<- | []]]; vm_compute; lia.
Defined.

(** C2 as stated fails: after an import of two spellings of one address
    and the deletion of one of them, the remaining record is still flagged
    although no other record shares its key. *)
Lemma duplicate_flags_stale_after_delete :
  ¬ (∀ (ops : list StoreOp) (store : list Address.t),
        apply_ops ops [] = Some store →
        ∀ addr, In addr store →
          (Address.isDuplicate addr = Some true
           ↔ (2 ≤ length (sharing_key (normalized_key addr) store))%nat)).
Proof.
  intros claim.
  pose proof (claim [op_ingest [acme; acme_again]; op_delete "tab-1-1"] _
                    delete_keeps_the_flag _ (or_introl eq_refl)) as [flagged _].
  specialize (flagged eq_refl). vm_compute in flagged. lia.
Qed.

(** ** C4: clearing the route, clearing the points *)

(** C4: "clear route" sets [isOnRoute] to false on every record, drops
    the route and keeps [isSelected]; "clear all points" sets both flags to
    false on every record, drops the route and remounts the map (its key
    changes and its refs start afresh).  Neither touches any other field of
    a record. *)
Theorem clear_route_and_clear_points
    (containsLocation : LatLng → Polygon → bool) (sys : System) :
  let st := app sys in
  (Forall2 (λ old new,
              Address.isOnRoute new = Some false
              ∧ Address.isSelected new = Address.isSelected old
              ∧ Address.isDuplicate new = Address.isDuplicate old
              ∧ Address.isHighlighted new = Address.isHighlighted old
              ∧ same_data old new)
           (addresses st) (addresses (handleClearRoute st))
   ∧ currentRoute (handleClearRoute st) = None
   ∧ hasRoute (handleClearRoute st) = false
   ∧ mapKey (handleClearRoute st) = mapKey st
   ∧ step containsLocation ClearRoute sys
     = Some (mkSystem (handleClearRoute st) (refs sys) (geocodeCalls sys) (routeCalls sys),
             []))
  ∧ (Forall2 (λ old new,
                Address.isSelected new = Some false
                ∧ Address.isOnRoute new = Some false
                ∧ Address.isDuplicate new = Address.isDuplicate old
                ∧ Address.isHighlighted new = Address.isHighlighted old
                ∧ same_data old new)
             (addresses st) (addresses (handleClearPoints st))
     ∧ currentRoute (handleClearPoints st) = None
     ∧ hasRoute (handleClearPoints st) = false
     ∧ mapKey (handleClearPoints st) = S (mapKey st)
     ∧ step containsLocation ClearPoints sys
       = Some (mkSystem (handleClearPoints st) unmounted_refs
                        (geocodeCalls sys) (routeCalls sys), [])).
Proof.
  intros st. split.
  - split; [|repeat split].
    apply Forall2_map_all. intros a. repeat split.
  - split; [|repeat split].
    + simpl. apply Forall2_map_all. intros a. repeat split.
    + simpl. lia.
Qed.

(** ** C7: editing a record *)

Lemma lookup_map {A B : Type} (f : A → B) (l : list A) (i : nat) :
  List.map f l !! i = f <$> l !! i.
Proof.
  revert i. induction l as [|x l IH]; intros [|i]; simpl; try reflexivity.
  apply IH.
Qed.

Lemma id_position (store : list Address.t) (id : string) :
  In id (List.map Address.id store) →
  ∃ i target, store !! i = Some target ∧ Address.id target = id.
Proof.
  intros [target [Hid Hin]]%in_map_iff.
  apply list_elem_of_In, list_elem_of_lookup in Hin as [i Hi].
  exists i, target. auto.
Qed.

Lemma unique_id_position (store : list Address.t) (i j : nat) (a b : Address.t) :
  NoDup (List.map Address.id store) →
  store !! i = Some a → store !! j = Some b → Address.id a = Address.id b → i = j.
Proof.
  intros Hnd Hi Hj Hid.
  apply (NoDup_lookup (List.map Address.id store) i j (Address.id a) Hnd).
  - rewrite lookup_map, Hi. reflexivity.
  - rewrite lookup_map, Hj, Hid. reflexivity.
Qed.

(** C7: in a store with unique ids, [update] writes the patch over the
    one record with the given id, sets [isHighlighted] to false on every
    record, and changes nothing else. *)
Theorem update_patches_one_and_dehighlights_all
    (id : string) (updates : Address.partial) (store : list Address.t) :
  NoDup (List.map Address.id store) →
  In id (List.map Address.id store) →
  ∃ (i : nat) (target : Address.t),
    store !! i = Some target
    ∧ Address.id target = id
    ∧ length (update_address id updates store) = length store
    ∧ ∀ (j : nat) (old : Address.t),
        store !! j = Some old →
        ∃ new,
          update_address id updates store !! j = Some new
          ∧ Address.isHighlighted new = Some false
          ∧ (j = i → patch_applied updates old new)
          ∧ (j ≠ i → same_but_highlight old new).
Proof.
  intros Hnd Hid.
  destruct (id_position store id Hid) as [i [target [Hi Htarget]]].
  exists i, target. split; [exact Hi|]. split; [exact Htarget|].
  split; [apply length_map|].
  intros j old Hj. unfold update_address. rewrite lookup_map, Hj. simpl.
  destruct (strict_eq (Address.id old) id) eqn:E.
  - eexists. split; [reflexivity|]. split; [reflexivity|]. split.
    + intros _. repeat split.
    + intros Hne. exfalso. apply Hne.
      apply strict_eq_true in E.
      apply (unique_id_position store j i old target Hnd Hj Hi). congruence.
  - eexists. split; [reflexivity|]. split; [reflexivity|]. split.
    + intros ->. exfalso. apply strict_eq_false in E. congruence.
    + intros _. repeat split.
Qed.

Lemma update_patches_one_and_dehighlights_all_witness :
  ∃ (i : nat) (target : Address.t),
    [acme; bolt] !! i = Some target
    ∧ Address.id target = "tab-1-2"
    ∧ length (update_address "tab-1-2"
                (Address.mkPartial None None (Some "10 Oak Ave")
                                   None None None None None None)
                [acme; bolt])
      = 2%nat.
Proof.
  destruct (update_patches_one_and_dehighlights_all "tab-1-2"
              (Address.mkPartial None None (Some "10 Oak Ave")
                                 None None None None None None)
              [acme; bolt])
    as [i [target [Hi [Hid [Hlen _]]]]].
  - apply (bool_decide_unpack (NoDup (List.map Address.id [acme; bolt]))).
    vm_compute. exact I.
  - simpl. right. left. reflexivity.
  - exists i, target. split; [exact Hi|]. split; [exact Hid|]. exact Hlen.
Defined.

(** ** C5 and C6: selection by region *)

Section RegionSelection.

Variable containsLocation : LatLng → Polygon → bool.
Variable polygon : Polygon.

Lemma inside_polygon_located (addr : Address.t) :
  inside_polygon containsLocation polygon addr = true →
  ∃ la lo,
    Address.latitude addr = Some la ∧ Address.longitude addr = Some lo
    ∧ containsLocation (mkLatLng la lo) polygon = true.
Proof.
  unfold inside_polygon, Address.lacks_coordinates.
  destruct (Address.latitude addr) as [la|], (Address.longitude addr) as [lo|];
    simpl; try discriminate.
  - destruct (negb _ || negb _); [discriminate|]. intros H. eauto.
  - rewrite orb_true_r. discriminate.
Qed.

Lemma addresses_inside_In (store : list Address.t) (addr : Address.t) :
  In addr (addresses_inside containsLocation polygon store)
  ↔ In addr store ∧ inside_polygon containsLocation polygon addr = true.
Proof. unfold addresses_inside. apply filter_In. Qed.

(** With unique ids, the id test of [handlePolygonComplete] finds a record
    in the selection exactly when the record itself passed the filter. *)
Lemma some_selected_inside (store : list Address.t) (addr : Address.t) :
  NoDup (List.map Address.id store) → In addr store →
  some_selected (addresses_inside containsLocation polygon store) addr
  = inside_polygon containsLocation polygon addr.
Proof.
  intros Hnd Hin. unfold some_selected.
  destruct (inside_polygon containsLocation polygon addr) eqn:Hinside.
  - apply existsb_exists. exists addr. split.
    + now apply addresses_inside_In.
    + now apply strict_eq_true.
  - apply not_true_is_false. intros [s [Hs Hid]]%existsb_exists.
    apply addresses_inside_In in Hs as [Hs Hs_inside].
    apply strict_eq_true in Hid.
    assert (s = addr) as -> by (eapply unique_id_determines; eauto).
    congruence.
Qed.

(** Accepting the pending polygon is one step of the event loop that
    replaces the store by [select_by_region]. *)
Lemma accept_polygon_step (sys : System) :
  pendingPolygonRef (refs sys) = Some polygon →
  mapInstanceRef (refs sys) = true →
  ∃ sys',
    step containsLocation AcceptPolygon sys = Some (sys', [])
    ∧ addresses (app sys')
      = select_by_region containsLocation polygon (addresses (app sys)).
Proof.
  intros Hpending Hmap. simpl. unfold handleAcceptPolygon.
  rewrite Hpending, Hmap. simpl. eexists. split; reflexivity.
Qed.

(** C5: in a store with unique ids, accepting a region leaves a record
    selected iff it is in the subset computed for the region, whatever its
    selection was before; a selected record has both coordinates and its
    point lies in the region, and a record without coordinates is not
    selected. *)
Theorem region_selection_replaces_selection (store : list Address.t) :
  NoDup (List.map Address.id store) →
  Forall2 (λ old new,
             (Address.isSelected new = Some true
              ↔ In old (addresses_inside containsLocation polygon store))
             ∧ (Address.isSelected new ≠ Some true → Address.isSelected new = Some false)
             ∧ (Address.isSelected new = Some true →
                ∃ la lo,
                  Address.latitude old = Some la ∧ Address.longitude old = Some lo
                  ∧ containsLocation (mkLatLng la lo) polygon = true)
             ∧ (Address.latitude old = None ∨ Address.longitude old = None →
                Address.isSelected new = Some false)
             ∧ same_data old new)
          store (select_by_region containsLocation polygon store).
Proof.
  intros Hnd. unfold select_by_region, polygon_complete.
  apply Forall2_map_elements. intros old Hold. simpl.
  rewrite (some_selected_inside store old Hnd Hold).
  destruct (inside_polygon containsLocation polygon old) eqn:Hinside.
  - split; [|split; [|split; [|split]]].
    + split; intros _; [now apply addresses_inside_In | reflexivity].
    + intros H. now contradiction H.
    + intros _. now apply inside_polygon_located.
    + intros Hnone. apply inside_polygon_located in Hinside as [la [lo [Hla [Hlo _]]]].
      destruct Hnone; congruence.
    + repeat split.
  - split; [|split; [|split; [|split]]].
    + split; [discriminate|]. intros [_ H]%addresses_inside_In. congruence.
    + reflexivity.
    + discriminate.
    + reflexivity.
    + repeat split.
Qed.

(** C6, as the code has it: in a store with unique ids, accepting a
    region sets [isSelected] and [isHighlighted] to true on the records of
    the subset and both to false on every other record; the other fields
    are kept. *)
Theorem region_selection_sets_both_flags (store : list Address.t) :
  NoDup (List.map Address.id store) →
  Forall2 (λ old new,
             (In old (addresses_inside containsLocation polygon store) →
              Address.isSelected new = Some true ∧ Address.isHighlighted new = Some true)
             ∧ (¬ In old (addresses_inside containsLocation polygon store) →
                Address.isSelected new = Some false
                ∧ Address.isHighlighted new = Some false)
             ∧ Address.isOnRoute new = Address.isOnRoute old
             ∧ Address.isDuplicate new = Address.isDuplicate old
             ∧ same_data old new)
          store (select_by_region containsLocation polygon store).
Proof.
  intros Hnd. unfold select_by_region, polygon_complete.
  apply Forall2_map_elements. intros old Hold. simpl.
  rewrite (some_selected_inside store old Hnd Hold).
  split; [|split; [|repeat split]].
  - intros [_ ->]%addresses_inside_In. split; reflexivity.
  - intros Hout.
    destruct (inside_polygon containsLocation polygon old) eqn:Hinside.
    + exfalso. apply Hout. now apply addresses_inside_In.
    + split; reflexivity.
Qed.

End RegionSelection.

Example narrow_box_selects_bolt :
  select_by_region box_contains narrow_box [acme_located; bolt_located]
  = [Address.with_isHighlighted (Some false) acme_located;
     Address.with_isHighlighted (Some true)
       (Address.with_isSelected (Some true) bolt_located)].
Proof. vm_compute. reflexivity. Qed.

Lemma region_selection_replaces_selection_witness :
  NoDup (List.map Address.id [acme_located; bolt_located])
  ∧ Forall2 (λ old new, Address.isSelected new = Some true → same_data old new)
            [acme_located; bolt_located]
            (select_by_region box_contains narrow_box [acme_located; bolt_located]).
Proof.
  assert (NoDup (List.map Address.id [acme_located; bolt_located])) as Hnd.
  { apply (bool_decide_unpack (NoDup (List.map Address.id [acme_located; bolt_located]))).
    vm_compute. exact I. }
  split; [exact Hnd|].
  eapply Forall2_impl.
  - exact (region_selection_replaces_selection box_contains narrow_box
             [acme_located; bolt_located] Hnd).
  - simpl. intros old new H _. apply H.
Defined.

Lemma region_selection_sets_both_flags_witness :
  NoDup (List.map Address.id [acme_highlighted; bolt_located])
  ∧ Forall2 (λ old new, Address.isDuplicate new = Address.isDuplicate old)
            [acme_highlighted; bolt_located]
            (select_by_region box_contains wide_box [acme_highlighted; bolt_located]).
Proof.
  assert (NoDup (List.map Address.id [acme_highlighted; bolt_located])) as Hnd.
  { apply (bool_decide_unpack
             (NoDup (List.map Address.id [acme_highlighted; bolt_located]))).
    vm_compute. exact I. }
  split; [exact Hnd|].
  eapply Forall2_impl.
  - exact (region_selection_sets_both_flags box_contains wide_box
             [acme_highlighted; bolt_located] Hnd).
  - simpl. intros old new H. apply H.
Defined.

(** C6 as stated fails: a highlighted record outside the accepted region
    loses its highlight. *)
Lemma region_selection_clears_highlight_outside :
  ¬ (∀ (containsLocation : LatLng → Polygon → bool) (polygon : Polygon)
       (store : list Address.t),
        NoDup (List.map Address.id store) →
        Forall2 (λ old new,
                   (In old (addresses_inside containsLocation polygon store) →
                    Address.isSelected new = Some true
                    ∧ Address.isHighlighted new = Some true)
                   ∧ (¬ In old (addresses_inside containsLocation polygon store) →
                      Address.isSelected new = Some false
                      ∧ Address.isHighlighted new = Address.isHighlighted old))
                store (select_by_region containsLocation polygon store)).
Proof.
  intros claim.
  specialize (claim box_contains wide_box [acme_highlighted]).
  assert (NoDup (List.map Address.id [acme_highlighted])) as Hnd
    by (simpl; apply NoDup_singleton).
  apply claim in Hnd. apply Forall2_cons_1 in Hnd as [[_ Houtside] _].
  destruct Houtside as [_ Hhighlight].
  - vm_compute. intros [].
  - vm_compute in Hhighlight. discriminate.
Qed.

(** ** C3: the preconditions of "create route" *)

Example overflow_message_26 :
  too_many_addresses_message 26
  = "Too many addresses selected (26). Google Maps allows a maximum of 25 waypoints per route. Please reduce the number of selected addresses or split into multiple routes.".
Proof. reflexivity. Qed.

Lemma append_associative (s1 s2 s3 : string) :
  (s1 +:+ s2) +:+ s3 = s1 +:+ s2 +:+ s3.
Proof.
  induction s1 as [|c s1 IH]; [reflexivity|].
  change (String c ((s1 +:+ s2) +:+ s3) = String c (s1 +:+ s2 +:+ s3)).
  now rewrite IH.
Qed.

Lemma overflow_message_mentions (count : nat) :
  occurs_in (pretty count) (too_many_addresses_message count)
  ∧ occurs_in "25" (too_many_addresses_message count).
Proof.
  split.
  - exists "Too many addresses selected (", waypoint_limit_advice. reflexivity.
  - exists ("Too many addresses selected (" +:+ pretty count
            +:+ "). Google Maps allows a maximum of "),
           " waypoints per route. Please reduce the number of selected addresses or split into multiple routes.".
    unfold too_many_addresses_message, waypoint_limit_advice.
    rewrite !append_associative. reflexivity.
Qed.

(** C3: "create route" tests the starting point, then that the
    selection is not empty, then that it has at most 25 records; the first
    test that fails reports its own message and leaves the state as it was.
    With more than 25 records selected the request never goes through, and
    once the starting point is valid the message is the overflow message,
    which carries the exact count. *)
Theorem create_route_checks_in_order (st : AppState) :
  let count := length (selectedAddresses st) in
  (StartingPoint.isValid (startingPoint st) = false →
   handleCreateRoute st = (st, [alert starting_point_invalid_message]))
  ∧ (StartingPoint.isValid (startingPoint st) = true → count = 0%nat →
     handleCreateRoute st = (st, [alert no_selection_message]))
  ∧ (StartingPoint.isValid (startingPoint st) = true → (25 < count)%nat →
     handleCreateRoute st = (st, [alert (too_many_addresses_message count)])
     ∧ occurs_in (pretty count) (too_many_addresses_message count)
     ∧ occurs_in "25" (too_many_addresses_message count))
  ∧ (StartingPoint.isValid (startingPoint st) = true → (1 ≤ count ≤ 25)%nat →
     handleCreateRoute st = (setIsCreatingRoute true st, []))
  ∧ ((25 < count)%nat →
     ∃ message, handleCreateRoute st = (st, [alert message])
                ∧ workflow (fst (handleCreateRoute st)) = workflow st).
Proof.
  intros count. unfold handleCreateRoute. fold count.
  destruct (StartingPoint.isValid (startingPoint st)); simpl.
  - split; [discriminate|].
    destruct (Nat.eqb_spec count 0) as [Hzero|Hpos].
    + repeat split; try lia; try reflexivity.
    + destruct (Nat.ltb_spec 25 count) as [Hover|Hfits].
      * split; [intros _ ?; lia|].
        split; [intros _ _; split; [reflexivity|apply overflow_message_mentions]|].
        split; [intros _ ?; lia|].
        intros _. eexists. split; reflexivity.
      * split; [intros _ ?; lia|].
        split; [intros _ ?; lia|].
        split; [reflexivity|]. intros ?. lia.
  - split; [reflexivity|].
    split; [discriminate|]. split; [discriminate|]. split; [discriminate|].
    intros _. eexists. split; reflexivity.
Qed.

Lemma create_route_checks_in_order_witness :
  (25 < length (selectedAddresses crowded))%nat
  ∧ handleCreateRoute crowded = (crowded, [alert (too_many_addresses_message 26)])
  ∧ occurs_in "26" (too_many_addresses_message 26).
Proof.
  assert (length (selectedAddresses crowded) = 26%nat) as Hcount by reflexivity.
  split; [rewrite Hcount; lia|].
  destruct (create_route_checks_in_order crowded) as [_ [_ [Hover _]]].
  destruct Hover as [Halert [Hmentions _]].
  - reflexivity.
  - rewrite Hcount. lia.
  - rewrite Hcount in Halert, Hmentions. split; [exact Halert|exact Hmentions].
Defined.

(** ** C10: a coordinate equal to zero *)

Lemma zero_is_falsy (zero : number) :
  PrimFloat.eqb zero 0 = true → truthy_number (Some zero) = false.
Proof. intros H. unfold truthy_number. rewrite H. reflexivity. Qed.

Lemma zero_coordinate_lacks (addr : Address.t) (zero : number) :
  Address.latitude addr = Some zero ∨ Address.longitude addr = Some zero →
  PrimFloat.eqb zero 0 = true →
  Address.lacks_coordinates addr = true ∧ Address.has_coordinates addr = false.
Proof.
  intros Hcoord Hzero. apply zero_is_falsy in Hzero.
  unfold Address.lacks_coordinates, Address.has_coordinates.
  destruct Hcoord as [-> | ->]; rewrite Hzero; simpl.
  - split; reflexivity.
  - split; [apply orb_true_r | apply andb_false_r].
Qed.

Lemma filter_middle_length {A : Type} (f : A → bool) (before after : list A) (x : A) :
  length (List.filter f (before ++ x :: after))
  = (length (List.filter f (before ++ after)) + if f x then 1 else 0)%nat.
Proof.
  rewrite !List.filter_app, !length_app. simpl.
  destruct (f x); simpl; lia.
Qed.

(** C10: a record one of whose coordinates is zero is handled as a
    record without coordinates: the map neither draws nor selects it, the
    table does not show it as geocoded, and, like every record without
    coordinates that has an address text, "geocode all" enqueues it and the
    statistics count it as an error and not as geocoded. *)
Theorem zero_coordinate_counts_as_absent
    (containsLocation : LatLng → Polygon → bool) (polygon : Polygon)
    (addr : Address.t) (zero : number) (before after : list Address.t) :
  Address.latitude addr = Some zero ∨ Address.longitude addr = Some zero →
  PrimFloat.eqb zero 0 = true →
  let store := (before ++ addr :: after)%list in
  let rest := (before ++ after)%list in
  Address.has_coordinates addr = false
  ∧ ¬ In addr (geocodedAddresses store)
  ∧ ¬ In addr (addresses_inside containsLocation polygon store)
  ∧ getGeocodingStatus addr
    = getGeocodingStatus (Address.with_coordinates None None addr)
  ∧ (In addr (addressesToGeocode store) ↔ Address.address addr ≠ "")
  ∧ geocoded (compute_stats store) = geocoded (compute_stats rest)
  ∧ errors (compute_stats store)
    = (errors (compute_stats rest) + if truthy_string (Address.address addr) then 1 else 0)%nat.
Proof.
  intros Hcoord Hzero store rest.
  destruct (zero_coordinate_lacks addr zero Hcoord Hzero) as [Hlacks Hhas].
  split; [exact Hhas|].
  split; [intros [_ H]%filter_In; congruence|].
  split.
  { intros [_ H]%filter_In. unfold inside_polygon in H.
    rewrite Hlacks in H. discriminate. }
  split.
  { unfold getGeocodingStatus. rewrite Hhas. reflexivity. }
  split.
  { unfold addressesToGeocode. rewrite filter_In, Hlacks, andb_true_r.
    split.
    - intros [_ H] Hempty. rewrite Hempty in H. discriminate.
    - intros Htext. split; [apply in_elt|].
      destruct (Address.address addr); [congruence|reflexivity]. }
  unfold compute_stats, store, rest. simpl.
  rewrite !filter_middle_length, Hhas, Hlacks, andb_true_r. split; lia.
Qed.

Lemma zero_coordinate_counts_as_absent_witness :
  In on_equator (addressesToGeocode [bolt_located; on_equator])
  ∧ errors (compute_stats [bolt_located; on_equator]) = 1%nat
  ∧ geocoded (compute_stats [bolt_located; on_equator]) = 1%nat.
Proof.
  destruct (zero_coordinate_counts_as_absent box_contains wide_box on_equator 0%float
              [bolt_located] [])
    as [_ [_ [_ [_ [Hqueue [Hgeocoded Herrors]]]]]].
  - left. reflexivity.
  - reflexivity.
  - split; [apply Hqueue; discriminate|].
    split; [exact Herrors | exact Hgeocoded].
Defined.

(** ** C8: the starting point *)

Lemma with_app_same (sys : System) : with_app (app sys) sys = sys.
Proof. destruct sys. reflexivity. Qed.

Example edit_while_geocoding_run :
  ∃ sys,
    run box_contains edit_while_geocoding initial_system
    = Some (sys, [geocodeAddress default_starting_address])
    ∧ startingPoint (app sys)
      = StartingPoint.mk "1 Main St" (Some 38.625%float) (Some (-77.125)%float) true.
Proof. eexists. split; vm_compute; reflexivity. Qed.

(** No event ends in an uncaught exception. *)
Lemma step_total (containsLocation : LatLng → Polygon → bool) (ev : Event) (sys : System) :
  is_Some (step containsLocation ev sys).
Proof.
  destruct ev; simpl; try (eexists; reflexivity).
  - unfold handleAddressesParsed, ingest. rewrite detectDuplicates_flags. simpl. eauto.
  - destruct (handleGeocodeAll_begin (app sys)) as [[st1 calls] [|addr rest]]; eauto.
  - destruct (handleGeocodeAddress_begin id (app sys)) as [st1 [text|]]; eauto.
  - destruct (geocodeCalls sys !! k) as [[id|addr rest|[]]|]; eauto.
    + destruct (handleGeocodeAddress_settle id outcome (app sys)); eauto.
    + destruct (handleGeocodeAll_settle addr rest outcome (app sys))
        as [[st1 calls] [|next rest1]]; eauto.
    + destruct (handleGeocodeStartingPoint_settle outcome (app sys)); eauto.
  - destruct (handleAcceptPolygon containsLocation (refs sys) (addresses (app sys)))
      as [r1 [selected|]]; eauto.
  - destruct (handleGeocodeStartingPoint_begin (app sys)) as [st1 [text|]]; eauto.
  - destruct (handleCreateRoute (app sys)); eauto.
  - destruct (negb _ || negb _); eauto.
    destruct (createRoute_begin _ _); simpl; eauto.
  - destruct (routeCalls sys !! k); eauto.
    destruct (createRoute_settle result status (app sys)); eauto.
Qed.

(** The only event that validates the starting point is a geocoder call
    made for it that comes back with a location. *)
Lemma step_validates (containsLocation : LatLng → Polygon → bool)
    (ev : Event) (sys sys' : System) (calls : list Call) :
  step containsLocation ev sys = Some (sys', calls) →
  StartingPoint.isValid (startingPoint (app sys)) = false →
  StartingPoint.isValid (startingPoint (app sys')) = true →
  ∃ k automatic location,
    ev = GeocodeSettled k (geocode_found location)
    ∧ geocodeCalls sys !! k = Some (call_for_start automatic).
Proof.
  intros Hstep Hbefore Hafter.
  destruct ev; simpl in Hstep;
    unfold handleAddressesParsed, handleClearTable, handleGeocodeAll_begin,
      handleGeocodeAddress_begin, handleGeocodeAddress_settle,
      handleGeocodeAll_settle, handleGeocodeStartingPoint_settle,
      handleGeocodeStartingPoint_begin, autoGeocode_settle, handleAcceptPolygon,
      handleCreateRoute, createRoute_failed, createRoute_settle,
      calculateOptimalRoute_settle in Hstep;
    try destruct (ingest _ _);
    repeat case_match; simplify_eq/=; try congruence; eauto.
  all: unfold createRoute_failed in *; simplify_eq/=; congruence.
Qed.

(** C8, as the code has it: an edit of the starting address replaces
    the text, sets [isValid] to false and clears both coordinates; the
    explicit geocode with an empty text changes nothing and calls nothing;
    and [isValid] turns true only when a geocoder call made for the
    starting point comes back with a location. *)
Theorem starting_point_edit_and_empty_geocode
    (containsLocation : LatLng → Polygon → bool) (sys : System) :
  let st := app sys in
  (∀ text,
      startingPoint (handleStartingAddressChange text st)
      = StartingPoint.mk text None None false
      ∧ step containsLocation (StartingAddressChange text) sys
        = Some (with_app (handleStartingAddressChange text st) sys, []))
  ∧ (StartingPoint.address (startingPoint st) = "" →
     handleGeocodeStartingPoint_begin st = (st, None)
     ∧ step containsLocation GeocodeStartingPoint sys = Some (sys, []))
  ∧ (∀ ev sys' calls,
        step containsLocation ev sys = Some (sys', calls) →
        StartingPoint.isValid (startingPoint st) = false →
        StartingPoint.isValid (startingPoint (app sys')) = true →
        ∃ k automatic location,
          ev = GeocodeSettled k (geocode_found location)
          ∧ geocodeCalls sys !! k = Some (call_for_start automatic)).
Proof.
  intros st. split; [|split].
  - intros text. split; reflexivity.
  - intros Hempty.
    assert (handleGeocodeStartingPoint_begin st = (st, None)) as Hnoop.
    { unfold handleGeocodeStartingPoint_begin. now rewrite Hempty. }
    split; [exact Hnoop|].
    simpl. fold st. rewrite Hnoop. unfold st. now rewrite with_app_same.
  - intros ev sys' calls. apply step_validates.
Qed.

Lemma starting_point_edit_and_empty_geocode_witness :
  StartingPoint.address (startingPoint (app (system_after [ClearStartingPoint]))) = ""
  ∧ step box_contains GeocodeStartingPoint (system_after [ClearStartingPoint])
    = Some (system_after [ClearStartingPoint], []).
Proof.
  split; [reflexivity|].
  destruct (starting_point_edit_and_empty_geocode box_contains
              (system_after [ClearStartingPoint])) as [_ [Hnoop _]].
  apply Hnoop. reflexivity.
Defined.

(** C8 as stated fails in its consequence: a geocoder call that was
    pending while the text was edited validates the new text, which was
    never sent to the geocoder. *)
Lemma starting_point_valid_without_geocode_of_its_text :
  ¬ (∀ (containsLocation : LatLng → Polygon → bool) (events : list Event)
       (sys : System) (calls : list Call),
        run containsLocation events initial_system = Some (sys, calls) →
        StartingPoint.isValid (startingPoint (app sys)) = true →
        In (geocodeAddress (StartingPoint.address (startingPoint (app sys))))
           (initial_calls ++ calls)%list).
Proof.
  intros claim.
  destruct edit_while_geocoding_run as [sys [Hrun Hstart]].
  specialize (claim box_contains edit_while_geocoding sys _ Hrun).
  rewrite Hstart in claim. specialize (claim eq_refl).
  simpl in claim. destruct claim as [H | [H | []]]; discriminate.
Qed.

(** ** C9 and C1: the route request settles *)

Lemma settle_failure (result : option DirectionsResult) (status : string) :
  status ≠ "OK" ∨ result = None →
  calculateOptimalRoute_settle result status
  = inl ("Directions request failed: " +:+ status).
Proof.
  unfold calculateOptimalRoute_settle. intros [Hstatus | ->].
  - apply strict_eq_false in Hstatus. now rewrite Hstatus.
  - now destruct (strict_eq status "OK").
Qed.

(** C9, as the code has it: a route request that fails, when it is
    started (no selected record with coordinates, no starting coordinates,
    more than 25 stops) or when the directions call comes back without a
    result, alerts the user and clears the busy flag; the records, the
    route on record and the route flag are as before, so that the workflow
    is back where it was before the request: idle, or active when an
    earlier route is still on record. *)
Theorem failed_route_request_changes_nothing
    (containsLocation : LatLng → Polygon → bool) (sys : System) :
  let st := app sys in
  let failed := setIsCreatingRoute false st in
  (∀ k result status,
      is_Some (routeCalls sys !! k) →
      status ≠ "OK" ∨ result = None →
      step containsLocation (RouteSettled k result status) sys
      = Some (mkSystem failed (refs sys) (geocodeCalls sys) (delete k (routeCalls sys)),
              [console_error "Error creating route:";
               alert ("Directions request failed: " +:+ status)]))
  ∧ (∀ message,
        isCreatingRoute st = true → directionsRef (refs sys) = true →
        createRoute_begin (addresses st) (startingPoint st) = inl message →
        step containsLocation RouteEffect sys
        = Some (with_app failed sys,
                [console_error "Error creating route:"; alert message]))
  ∧ (route_stops (addresses st) = [] →
     createRoute_begin (addresses st) (startingPoint st)
     = inl "No valid addresses or starting point")
  ∧ ((25 < length (route_stops (addresses st)))%nat →
     createRoute_begin (addresses st) (startingPoint st)
     = inl (if truthy_number (StartingPoint.latitude (startingPoint st))
               && truthy_number (StartingPoint.longitude (startingPoint st))
            then too_many_waypoints_message (length (route_stops (addresses st)))
            else "No valid addresses or starting point"))
  ∧ addresses failed = addresses st
  ∧ currentRoute failed = currentRoute st
  ∧ hasRoute failed = hasRoute st
  ∧ startingPoint failed = startingPoint st
  ∧ workflow failed = (if hasRoute st then Active else Idle).
Proof.
  intros st failed. split; [|split; [|split; [|split]]].
  - intros k result status [call Hcall] Hfail. simpl. rewrite Hcall.
    unfold createRoute_settle. rewrite (settle_failure result status Hfail).
    reflexivity.
  - intros message Hbusy Hmap Hbegin. simpl. fold st.
    rewrite Hbusy, Hmap, Hbegin. reflexivity.
  - intros Hnone. unfold createRoute_begin. rewrite Hnone. reflexivity.
  - intros Hover. unfold createRoute_begin.
    destruct (Nat.eqb_spec (length (route_stops (addresses st))) 0) as [Hzero|_];
      [lia|].
    apply Nat.ltb_lt in Hover. rewrite Hover. simpl.
    destruct (truthy_number (StartingPoint.latitude (startingPoint st)));
      destruct (truthy_number (StartingPoint.longitude (startingPoint st)));
      reflexivity.
  - repeat split.
Qed.

Example rerequest_from_active_run :
  ∃ sys calls,
    run box_contains rerequest_from_active initial_system = Some (sys, calls)
    ∧ length (routeCalls sys) = 1%nat
    ∧ currentRoute (app sys) = Some some_route
    ∧ workflow (app sys) = Requested.
Proof. eexists _, _. split; [vm_compute; reflexivity|]. repeat split. Qed.

(** C9 as stated fails: a request made while a route is active and
    failing leaves the workflow active, the earlier route on record, not
    idle. *)
Lemma failed_rerequest_stays_active :
  ¬ (∀ (containsLocation : LatLng → Polygon → bool) (events : list Event)
       (sys : System) (calls : list Call) (k : nat)
       (result : option DirectionsResult) (status : string)
       (sys' : System) (calls' : list Call),
        run containsLocation events initial_system = Some (sys, calls) →
        is_Some (routeCalls sys !! k) →
        status ≠ "OK" ∨ result = None →
        step containsLocation (RouteSettled k result status) sys = Some (sys', calls') →
        workflow (app sys') = Idle).
Proof.
  intros claim.
  destruct (run box_contains rerequest_from_active initial_system)
    as [[sys calls]|] eqn:Hrun; [|vm_compute in Hrun; discriminate].
  destruct (step box_contains (RouteSettled 0 None "OVER_QUERY_LIMIT") sys)
    as [[sys' calls']|] eqn:Hstep;
    [|vm_compute in Hrun; injection Hrun as <- _; vm_compute in Hstep; discriminate].
  assert (is_Some (routeCalls sys !! 0%nat)) as Hpending.
  { vm_compute in Hrun. injection Hrun as <- _. vm_compute. eauto. }
  pose proof (claim box_contains _ sys calls 0%nat None "OVER_QUERY_LIMIT" sys' calls'
                    Hrun Hpending (or_intror eq_refl) Hstep) as Hidle.
  vm_compute in Hrun. injection Hrun as <- _.
  vm_compute in Hstep. injection Hstep as <- _.
  vm_compute in Hidle. discriminate.
Qed.

Example route_pending_calls :
  length (routeCalls route_pending) = 1%nat
  ∧ List.map Address.isSelected (addresses (app route_pending)) = [Some true; Some true]
  ∧ workflow (app route_pending) = Requested.
Proof. vm_compute. repeat split. Qed.

Lemma failed_route_request_changes_nothing_witness :
  is_Some (routeCalls route_pending !! 0%nat)
  ∧ ∃ sys',
      step box_contains (RouteSettled 0 None "OVER_QUERY_LIMIT") route_pending
      = Some (sys', [console_error "Error creating route:";
                     alert "Directions request failed: OVER_QUERY_LIMIT"])
      ∧ addresses (app sys') = addresses (app route_pending)
      ∧ workflow (app sys') = Idle.
Proof.
  assert (is_Some (routeCalls route_pending !! 0%nat)) as Hpending.
  { vm_compute. eauto. }
  split; [exact Hpending|].
  destruct (failed_route_request_changes_nothing box_contains route_pending)
    as [Hsettled _].
  eexists. split.
  - apply (Hsettled 0%nat None "OVER_QUERY_LIMIT" Hpending). left. discriminate.
  - split; reflexivity.
Defined.

(** C1, as the code has it: when a directions call comes back with a
    route, every record's [isOnRoute] becomes the [isSelected] that the
    record has in the store at that moment; the route is put on record and
    the workflow is active.  Nothing else in a record changes. *)
Theorem route_success_tags_current_selection
    (containsLocation : LatLng → Polygon → bool) (sys : System)
    (k : nat) (result : option DirectionsResult) (status : string)
    (route : DirectionsResult) :
  is_Some (routeCalls sys !! k) →
  calculateOptimalRoute_settle result status = inr route →
  ∃ sys',
    step containsLocation (RouteSettled k result status) sys
    = Some (sys', [setDirections route])
    ∧ Forall2 (λ old new,
                 Address.isOnRoute new = Address.isSelected old
                 ∧ Address.isSelected new = Address.isSelected old
                 ∧ Address.isDuplicate new = Address.isDuplicate old
                 ∧ Address.isHighlighted new = Address.isHighlighted old
                 ∧ same_data old new)
              (addresses (app sys)) (addresses (app sys'))
    ∧ currentRoute (app sys') = Some route
    ∧ workflow (app sys') = Active
    ∧ routeCalls sys' = delete k (routeCalls sys).
Proof.
  intros [call Hcall] Hroute. eexists. split.
  - simpl. rewrite Hcall. unfold createRoute_settle. rewrite Hroute. reflexivity.
  - split; [|repeat split].
    simpl. apply Forall2_map_all. intros a. repeat split.
Qed.

Example selection_changed_run :
  ∃ sys calls,
    run box_contains selection_changed_while_pending initial_system = Some (sys, calls)
    ∧ List.map Address.isSelected (addresses (app sys)) = [Some false; Some true]
    ∧ List.map (λ call, List.map Address.isSelected (call_addresses call)) (routeCalls sys)
      = [[Some true; Some true]; [Some false; Some true]].
Proof. eexists _, _. split; [vm_compute; reflexivity|]. split; reflexivity. Qed.

Lemma route_success_tags_current_selection_witness :
  is_Some (routeCalls route_pending !! 0%nat)
  ∧ calculateOptimalRoute_settle (Some some_route) "OK" = inr some_route
  ∧ ∃ sys',
      step box_contains (RouteSettled 0 (Some some_route) "OK") route_pending
      = Some (sys', [setDirections some_route])
      ∧ workflow (app sys') = Active.
Proof.
  assert (is_Some (routeCalls route_pending !! 0%nat)) as Hpending.
  { vm_compute. eauto. }
  split; [exact Hpending|]. split; [reflexivity|].
  destruct (route_success_tags_current_selection box_contains route_pending 0
              (Some some_route) "OK" some_route Hpending eq_refl)
    as [sys' [Hstep [_ [_ [Hactive _]]]]].
  exists sys'. split; [exact Hstep | exact Hactive].
Defined.

(** C1 as stated fails: a record that was selected when the directions
    call was made and is deselected while the call is pending is not
    tagged when the route arrives. *)
Lemma route_success_ignores_selection_at_dispatch :
  ¬ (∀ (containsLocation : LatLng → Polygon → bool) (events : list Event)
       (sys : System) (calls : list Call) (k : nat) (call : RouteCall)
       (result : option DirectionsResult) (status : string) (route : DirectionsResult)
       (sys' : System) (calls' : list Call),
        run containsLocation events initial_system = Some (sys, calls) →
        routeCalls sys !! k = Some call →
        calculateOptimalRoute_settle result status = inr route →
        step containsLocation (RouteSettled k result status) sys = Some (sys', calls') →
        ∀ old new,
          In old (call_addresses call) → In new (addresses (app sys')) →
          Address.id old = Address.id new →
          Address.isOnRoute new = Address.isSelected old).
Proof.
  intros claim.
  destruct (run box_contains selection_changed_while_pending initial_system)
    as [[sys calls]|] eqn:Hrun; [|vm_compute in Hrun; discriminate].
  destruct (routeCalls sys !! 0%nat) as [call|] eqn:Hcall;
    [|vm_compute in Hrun; injection Hrun as <- _; vm_compute in Hcall; discriminate].
  destruct (step box_contains (RouteSettled 0 (Some some_route) "OK") sys)
    as [[sys' calls']|] eqn:Hstep;
    [|vm_compute in Hrun; injection Hrun as <- _; vm_compute in Hstep; discriminate].
  pose proof (claim box_contains _ sys calls 0%nat call (Some some_route) "OK" some_route
                    sys' calls' Hrun Hcall eq_refl Hstep) as tagged.
  vm_compute in Hrun. injection Hrun as <- _.
  vm_compute in Hcall. injection Hcall as <-.
  vm_compute in Hstep. injection Hstep as <- _.
  specialize (tagged _ _ (or_introl eq_refl) (or_introl eq_refl) eq_refl).
  vm_compute in tagged. discriminate.
Qed.

(** * Further properties of the code *)

(** ** Trimming and splitting *)

Lemma trimStart_head (s : string) :
  trimStart s = "" ∨ ∃ c r, trimStart s = String c r ∧ Ascii.is_space c = false.
Proof.
  induction s as [|c s IH]; simpl; [now left|].
  destruct (Ascii.is_space c) eqn:E; [exact IH|].
  right. eauto.
Qed.

Lemma trimStart_fixed (c : Ascii.ascii) (r : string) :
  Ascii.is_space c = false → trimStart (String c r) = String c r.
Proof. intros E. simpl. now rewrite E. Qed.

Lemma trimStart_idempotent (s : string) : trimStart (trimStart s) = trimStart s.
Proof.
  destruct (trimStart_head s) as [-> | [c [r [-> E]]]]; [reflexivity|].
  now apply trimStart_fixed.
Qed.

Lemma rev_app_append (s1 s2 : string) :
  String.rev_app s1 s2 = String.rev_app s1 "" +:+ s2.
Proof.
  revert s2. induction s1 as [|c s1 IH]; intros s2; simpl; [reflexivity|].
  rewrite IH, (IH (String c "")), append_associative. reflexivity.
Qed.

Lemma rev_cons (c : Ascii.ascii) (s : string) :
  String.rev (String c s) = String.rev s +:+ String c "".
Proof. unfold String.rev. simpl. apply rev_app_append. Qed.

Lemma append_empty_r (s : string) : s +:+ "" = s.
Proof.
  induction s as [|c s IH]; [reflexivity|].
  change (String c (s +:+ "") = String c s). now rewrite IH.
Qed.

Lemma rev_append (s1 s2 : string) :
  String.rev (s1 +:+ s2) = String.rev s2 +:+ String.rev s1.
Proof.
  induction s1 as [|c s1 IH].
  - change (String.rev s2 = String.rev s2 +:+ ""). now rewrite append_empty_r.
  - change (String.rev (String c (s1 +:+ s2))
            = String.rev s2 +:+ String.rev (String c s1)).
    rewrite !rev_cons, IH, append_associative. reflexivity.
Qed.

Lemma rev_involutive (s : string) : String.rev (String.rev s) = s.
Proof.
  induction s as [|c s IH]; [reflexivity|].
  rewrite rev_cons, rev_append, IH. reflexivity.
Qed.

(** Trimming the front of a text that ends with a visible character keeps
    that character at the end. *)
Lemma trimStart_keeps_last (x : string) (c : Ascii.ascii) :
  Ascii.is_space c = false →
  ∃ w, trimStart (x +:+ String c "") = w +:+ String c "".
Proof.
  intros E. induction x as [|d x IH].
  - exists "". simpl. now rewrite E.
  - change (String d x +:+ String c "") with (String d (x +:+ String c "")).
    simpl. destruct (Ascii.is_space d); [exact IH|].
    exists (String d x). reflexivity.
Qed.

(** A trimmed text is empty or starts with the first visible character of
    the text. *)
Lemma trim_head (s : string) :
  (trimStart s = "" ∧ trim s = "")
  ∨ ∃ c r r', trimStart s = String c r ∧ Ascii.is_space c = false
              ∧ trim s = String c r'.
Proof.
  unfold trim. destruct (trimStart_head s) as [-> | [c [r [-> E]]]].
  - left. split; reflexivity.
  - right. rewrite rev_cons.
    destruct (trimStart_keeps_last (String.rev r) c E) as [w ->].
    rewrite rev_append. exists c, r, (String.rev w). repeat split; trivial.
Qed.

Lemma trim_idempotent (s : string) : trim (trim s) = trim s.
Proof.
  destruct (trim_head s) as [[_ ->] | [c [r [r' [_ [E Htrim]]]]]]; [reflexivity|].
  unfold trim at 1. rewrite Htrim, (trimStart_fixed c r' E), <- Htrim.
  unfold trim. rewrite rev_involutive, trimStart_idempotent. reflexivity.
Qed.

(** A text that starts with a visible character is not trimmed away. *)
Lemma trim_visible (c : Ascii.ascii) (r : string) :
  Ascii.is_space c = false → ∃ r', trim (String c r) = String c r'.
Proof.
  intros E. destruct (trim_head (String c r)) as [[H _] | [d [q [q' [H [_ Htrim]]]]]].
  - rewrite (trimStart_fixed c r E) in H. discriminate.
  - rewrite (trimStart_fixed c r E) in H. injection H as <- _. eauto.
Qed.

Lemma js_split_head (separator c : Ascii.ascii) (s : string) :
  Ascii.eqb c separator = false →
  ∃ segment segments, js_split separator (String c s) = String c segment :: segments.
Proof.
  intros E. simpl. rewrite E. destruct (js_split separator s); eauto.
Qed.

Lemma js_split_nonempty (separator : Ascii.ascii) (s : string) :
  js_split separator s ≠ [].
Proof.
  destruct s as [|c s]; simpl; [discriminate|].
  destruct (Ascii.eqb c separator); [discriminate|].
  destruct (js_split separator s); discriminate.
Qed.

(** ** Ids of imported rows *)

Lemma pretty_N_char_no_dash (x : N) : pretty_N_char x ≠ dash_char.
Proof. unfold pretty_N_char. repeat case_match; discriminate. Qed.

Lemma pretty_N_go_dash_free (x : N) :
  ∀ s, dash_free s → dash_free (pretty_N_go x s).
Proof.
  induction (N.lt_wf_0 x) as [x _ IH]. intros s Hs.
  assert (x = 0 ∨ 0 < x)%N as [-> | Hpos] by lia.
  - now rewrite pretty_N_go_0.
  - rewrite pretty_N_go_step by exact Hpos. apply IH.
    + now apply N.div_lt.
    + split; [apply pretty_N_char_no_dash|exact Hs].
Qed.

Lemma pretty_N_dash_free (x : N) : dash_free (pretty x).
Proof.
  unfold pretty, pretty_N. case_decide.
  - split; [discriminate|exact I].
  - apply pretty_N_go_dash_free. exact I.
Qed.

Lemma dash_splits (p1 p2 q1 q2 : string) :
  dash_free p1 → dash_free p2 →
  p1 +:+ "-" +:+ q1 = p2 +:+ "-" +:+ q2 → p1 = p2 ∧ q1 = q2.
Proof.
  revert p2. induction p1 as [|c p1 IH]; intros [|d p2] H1 H2 Heq.
  - now injection Heq.
  - exfalso. destruct H2 as [Hd _]. injection Heq as Hc _.
    apply Hd. rewrite <- Hc. reflexivity.
  - exfalso. destruct H1 as [Hc _]. injection Heq as Hd _.
    apply Hc. rewrite Hd. reflexivity.
  - destruct H1 as [_ H1], H2 as [_ H2]. injection Heq as -> Heq.
    destruct (IH p2 H1 H2 Heq) as [-> ->]. split; reflexivity.
Qed.

(** The id of a row tells the clock reading and the index it was made
    from. *)
Lemma row_id_injective (prefix : string) (now1 now2 : N) (index1 index2 : nat) :
  row_id prefix now1 index1 = row_id prefix now2 index2 →
  now1 = now2 ∧ index1 = index2.
Proof.
  unfold row_id. intros Heq. apply (inj (String.app prefix)) in Heq.
  apply dash_splits in Heq as [Hnow Hindex]; try apply pretty_N_dash_free.
  split; [now apply (inj pretty) in Hnow | now apply (inj pretty) in Hindex].
Qed.

(** ** Parsed rows *)

Lemma filter_imap_In {A : Type} (f : Address.t → bool) (g : nat → A → Address.t)
    (l : list A) (addr : Address.t) :
  In addr (List.filter f (imap g l)) →
  ∃ i x, l !! i = Some x ∧ addr = g i x ∧ f addr = true.
Proof.
  intros [Hin Hf]%filter_In.
  apply list_elem_of_In, list_elem_of_lookup in Hin as [i Hi].
  rewrite list_lookup_imap in Hi.
  destruct (l !! i) as [x|] eqn:Hx; [|discriminate].
  injection Hi as <-. eauto.
Qed.

Lemma filter_imap_NoDup {A : Type} (f : Address.t → bool) (l : list A) :
  ∀ g : nat → A → Address.t,
    (∀ i j x y, Address.id (g i x) = Address.id (g j y) → i = j) →
    NoDup (List.map Address.id (List.filter f (imap g l))).
Proof.
  induction l as [|x l IH]; intros g Hg; simpl.
  - constructor.
  - assert (NoDup (List.map Address.id (List.filter f (imap (g ∘ S) l)))) as Hrest.
    { apply IH. intros i j a b Hid. apply Hg in Hid. lia. }
    destruct (f (g 0%nat x)); [|exact Hrest]. simpl.
    apply NoDup_cons. split; [|exact Hrest].
    intros [addr [Hid Hin]]%list_elem_of_In%in_map_iff.
    apply filter_imap_In in Hin as [j [y [_ [-> _]]]].
    simpl in Hid. apply Hg in Hid. discriminate.
Qed.

Lemma has_content_spec (addr : Address.t) :
  has_content addr = true →
  Address.businessName addr ≠ "" ∨ Address.address addr ≠ "".
Proof.
  unfold has_content.
  destruct (Address.businessName addr); [|left; discriminate].
  destruct (Address.address addr); [discriminate|right; discriminate].
Qed.

(** X1: Every record that a paste yields has a name or an address, holds both
    without surrounding white space, has no coordinates and no flag set,
    and is named after the line it comes from. *)
Theorem parseTabDelimited_rows (clock : nat → N) (text : string) (addr : Address.t) :
  In addr (parseTabDelimited clock text) →
  (Address.businessName addr ≠ "" ∨ Address.address addr ≠ "")
  ∧ trim (Address.businessName addr) = Address.businessName addr
  ∧ trim (Address.address addr) = Address.address addr
  ∧ Address.latitude addr = None ∧ Address.longitude addr = None
  ∧ Address.isSelected addr = Some false ∧ Address.isOnRoute addr = Some false
  ∧ Address.isDuplicate addr = Some false ∧ Address.isHighlighted addr = Some false
  ∧ ∃ index,
      (index < length (js_split newline_char (trim text)))%nat
      ∧ Address.id addr = row_id "tab-" (clock index) index.
Proof.
  unfold parseTabDelimited.
  intros [index [line [Hline [-> Hcontent]]]]%filter_imap_In.
  split; [now apply has_content_spec|]. simpl.
  rewrite !trim_idempotent. repeat split.
  exists index. split; [|reflexivity]. now apply lookup_lt_Some in Hline.
Qed.

(** X2: The ids of one paste are pairwise distinct, whatever the clock reads,
    and two pastes during which the clock reads different times share no
    id. *)
Theorem parseTabDelimited_distinct_ids (clock1 clock2 : nat → N) (text1 text2 : string) :
  NoDup (List.map Address.id (parseTabDelimited clock1 text1))
  ∧ ((∀ i j, clock1 i ≠ clock2 j) →
     NoDup (List.map Address.id
              (parseTabDelimited clock1 text1 ++ parseTabDelimited clock2 text2)%list)).
Proof.
  assert (∀ clock text, NoDup (List.map Address.id (parseTabDelimited clock text)))
    as Hone.
  { intros clock text. unfold parseTabDelimited. apply filter_imap_NoDup.
    intros i j x y Hid. simpl in Hid. now apply row_id_injective in Hid. }
  split; [apply Hone|]. intros Hclock.
  rewrite List.map_app. apply NoDup_app. split; [apply Hone|]. split; [|apply Hone].
  intros id [a [Ha Hin1]]%list_elem_of_In%in_map_iff
            [b [Hb Hin2]]%list_elem_of_In%in_map_iff.
  apply filter_imap_In in Hin1 as [i [x [_ [-> _]]]].
  apply filter_imap_In in Hin2 as [j [y [_ [-> _]]]].
  simpl in Ha, Hb. subst id. apply row_id_injective in Hb as [Hnow _].
  now apply (Hclock i j).
Qed.

(** X3: A text that the modal lets through is handed over unchanged and
    always yields a record for its first line, with a name. *)
Theorem submitted_paste_yields_a_record (clock : nat → N) (text submitted : string) :
  modal_handleSubmit text = Some submitted →
  submitted = text
  ∧ ∃ first rest,
      parseTabDelimited clock text = first :: rest
      ∧ Address.id first = row_id "tab-" (clock 0%nat) 0
      ∧ Address.businessName first ≠ "".
Proof.
  unfold modal_handleSubmit. intros Hsubmit.
  destruct (trim_head text) as [[_ Hblank] | [c [r [r' [_ [Hc Htrim]]]]]].
  { rewrite Hblank in Hsubmit. discriminate. }
  rewrite Htrim in Hsubmit. injection Hsubmit as <-. split; [reflexivity|].
  assert (Ascii.eqb c newline_char = false ∧ Ascii.eqb c tab_char = false) as [Hnl Htab].
  { split; apply Ascii.eqb_neq; intros ->; discriminate. }
  unfold parseTabDelimited. rewrite Htrim.
  destruct (js_split_head newline_char c r' Hnl) as [line [lines ->]].
  rewrite imap_cons. simpl List.filter.
  assert (∃ name, Address.businessName (tab_row (clock 0%nat) 0 (String c line))
                  = String c name) as [name Hname].
  { unfold tab_row.
    destruct (js_split_head tab_char c line Htab) as [field [fields ->]].
    simpl. apply trim_visible. exact Hc. }
  unfold has_content at 1. rewrite Hname. simpl.
  eexists _, _. split; [reflexivity|]. split; [reflexivity|].
  rewrite Hname. discriminate.
Qed.

Example pasted_text_parsed :
  parseTabDelimited (steady_clock 1700000000000) pasted_text
  = [unflagged "tab-1700000000000-0" "Acme" "1 Main St";
     unflagged "tab-1700000000000-1" "acme" "1 MAIN ST"].
Proof. vm_compute. reflexivity. Qed.

Lemma parseTabDelimited_rows_witness :
  In (unflagged "tab-1700000000000-0" "Acme" "1 Main St")
     (parseTabDelimited (steady_clock 1700000000000) pasted_text)
  ∧ trim "Acme" = "Acme".
Proof.
  assert (In (unflagged "tab-1700000000000-0" "Acme" "1 Main St")
             (parseTabDelimited (steady_clock 1700000000000) pasted_text)) as Hin.
  { vm_compute. left. reflexivity. }
  split; [exact Hin|].
  destruct (parseTabDelimited_rows _ _ _ Hin) as [_ [Hname _]]. exact Hname.
Defined.

Lemma parseTabDelimited_distinct_ids_witness :
  (∀ i j : nat, steady_clock 1700000000000 i ≠ steady_clock 1700000004000 j)
  ∧ NoDup (List.map Address.id
             (parseTabDelimited (steady_clock 1700000000000) pasted_text
              ++ parseTabDelimited (steady_clock 1700000004000) pasted_text)%list).
Proof.
  assert (∀ i j : nat, steady_clock 1700000000000 i ≠ steady_clock 1700000004000 j)
    as Hclock by (intros i j; discriminate).
  split; [exact Hclock|].
  destruct (parseTabDelimited_distinct_ids (steady_clock 1700000000000)
              (steady_clock 1700000004000) pasted_text pasted_text) as [_ Htwo].
  apply Htwo. exact Hclock.
Defined.

Lemma submitted_paste_yields_a_record_witness :
  modal_handleSubmit pasted_text = Some pasted_text
  ∧ ∃ first rest,
      parseTabDelimited (steady_clock 1700000000000) pasted_text = first :: rest
      ∧ Address.businessName first ≠ "".
Proof.
  split; [reflexivity|].
  destruct (submitted_paste_yields_a_record (steady_clock 1700000000000)
              pasted_text pasted_text eq_refl) as [_ [first [rest [Hrows [_ Hname]]]]].
  exists first, rest. split; [exact Hrows | exact Hname].
Defined.

Lemma first_truthy_reads (columns : list string) (row : gmap string string) :
  first_truthy columns row = ""
  ∨ ∃ column, In column columns ∧ row !! column = Some (first_truthy columns row).
Proof.
  induction columns as [|column columns IH]; simpl; [now left|].
  destruct (row !! column) as [value|] eqn:Hvalue.
  - destruct (truthy_string value) eqn:Htruthy.
    + right. exists column. split; [now left | exact Hvalue].
    + destruct IH as [IH | [c [Hc Hrow]]]; [now left|]. right. eauto.
  - destruct IH as [IH | [c [Hc Hrow]]]; [now left|]. right. eauto.
Qed.

Lemma first_truthy_only_reads (columns : list string) (row1 row2 : gmap string string) :
  (∀ column, In column columns → row1 !! column = row2 !! column) →
  first_truthy columns row1 = first_truthy columns row2.
Proof.
  induction columns as [|column columns IH]; intros Hsame; simpl; [reflexivity|].
  rewrite <- (Hsame column) by now left.
  rewrite IH by (intros c Hc; apply Hsame; now right). reflexivity.
Qed.

(** X4: The records that a file import yields have pairwise distinct ids and,
    each of them, a name or an address, both trimmed, taken from the row's
    recognised columns only, no coordinates and no flag set. *)
Theorem parseCSV_complete_rows (clock : nat → N) (data : list (gmap string string)) :
  NoDup (List.map Address.id (parseCSV_complete clock data))
  ∧ ∀ addr, In addr (parseCSV_complete clock data) →
      (Address.businessName addr ≠ "" ∨ Address.address addr ≠ "")
      ∧ trim (Address.businessName addr) = Address.businessName addr
      ∧ trim (Address.address addr) = Address.address addr
      ∧ Address.latitude addr = None ∧ Address.longitude addr = None
      ∧ Address.isSelected addr = Some false ∧ Address.isOnRoute addr = Some false
      ∧ Address.isDuplicate addr = Some false ∧ Address.isHighlighted addr = Some false
      ∧ ∃ index row,
          data !! index = Some row
          ∧ Address.id addr = row_id "csv-" (clock index) index
          ∧ Address.businessName addr = trim (first_truthy business_name_columns row)
          ∧ Address.address addr = trim (first_truthy address_columns row)
          ∧ ∀ row',
              (∀ column, In column (business_name_columns ++ address_columns)%list →
                         row' !! column = row !! column) →
              csv_row (clock index) index row' = addr.
Proof.
  unfold parseCSV_complete. split.
  - apply filter_imap_NoDup. intros i j x y Hid. simpl in Hid.
    now apply row_id_injective in Hid.
  - intros addr [index [row [Hrow [-> Hcontent]]]]%filter_imap_In.
    split; [now apply has_content_spec|]. simpl.
    rewrite !trim_idempotent. repeat split.
    exists index, row. repeat split; trivial.
    intros row' Hsame. unfold csv_row.
    rewrite (first_truthy_only_reads business_name_columns row' row),
            (first_truthy_only_reads address_columns row' row); [reflexivity|..];
      intros c Hc; apply Hsame; simpl in Hc; tauto.
Qed.

Example csv_data_parsed :
  parseCSV_complete (steady_clock 1700000000000) csv_data
  = [unflagged "csv-1700000000000-0" "Acme" "1 Main St"].
Proof. vm_compute. reflexivity. Qed.

Lemma parseCSV_complete_rows_witness :
  In (unflagged "csv-1700000000000-0" "Acme" "1 Main St")
     (parseCSV_complete (steady_clock 1700000000000) csv_data)
  ∧ Address.latitude (unflagged "csv-1700000000000-0" "Acme" "1 Main St") = None.
Proof.
  assert (In (unflagged "csv-1700000000000-0" "Acme" "1 Main St")
             (parseCSV_complete (steady_clock 1700000000000) csv_data)) as Hin.
  { vm_compute. left. reflexivity. }
  split; [exact Hin|].
  destruct (parseCSV_complete_rows (steady_clock 1700000000000) csv_data) as [_ Hrows].
  destruct (Hrows _ Hin) as [_ [_ [_ [Hlat _]]]]. exact Hlat.
Defined.

(** ** Duplicate detection and imports compose *)

Lemma sharing_key_app (k : string) (l1 l2 : list Address.t) :
  sharing_key k (l1 ++ l2) = (sharing_key k l1 ++ sharing_key k l2)%list.
Proof. unfold sharing_key. apply List.filter_app. Qed.

(** The flags that a list already carries play no part in the result. *)
Lemma detectDuplicates_ignores_flags (g : Address.t → option bool)
    (l rows : list Address.t) :
  detectDuplicates (List.map (λ a, Address.with_isDuplicate (g a) a) l ++ rows)
  = detectDuplicates (l ++ rows).
Proof.
  rewrite !detectDuplicates_flags. f_equal.
  rewrite !List.map_app, List.map_map. f_equal.
  - apply List.map_ext. intros a.
    change (normalized_key (Address.with_isDuplicate (g a) a)) with (normalized_key a).
    rewrite !sharing_key_app, !length_app, sharing_key_with_isDuplicate.
    reflexivity.
  - apply List.map_ext. intros a.
    rewrite !sharing_key_app, !length_app, sharing_key_with_isDuplicate.
    reflexivity.
Qed.

(** X5: Duplicate detection is idempotent: run on its own result it changes
    nothing. *)
Theorem detectDuplicates_idempotent (addressList flagged : list Address.t) :
  detectDuplicates addressList = Some flagged →
  detectDuplicates flagged = Some flagged.
Proof.
  rewrite detectDuplicates_flags. intros [= <-].
  pose proof (detectDuplicates_ignores_flags
                (λ a, Some (1 <? length (sharing_key (normalized_key a) addressList))%nat)
                addressList []) as Hsame.
  rewrite !app_nil_r in Hsame. rewrite Hsame. apply detectDuplicates_flags.
Qed.

Lemma detectDuplicates_idempotent_witness :
  detectDuplicates [acme; acme_again; bolt]
  = Some [Address.with_isDuplicate (Some true) acme;
          Address.with_isDuplicate (Some true) acme_again; bolt]
  ∧ detectDuplicates [Address.with_isDuplicate (Some true) acme;
                      Address.with_isDuplicate (Some true) acme_again; bolt]
    = Some [Address.with_isDuplicate (Some true) acme;
            Address.with_isDuplicate (Some true) acme_again; bolt].
Proof.
  assert (detectDuplicates [acme; acme_again; bolt]
          = Some [Address.with_isDuplicate (Some true) acme;
                  Address.with_isDuplicate (Some true) acme_again; bolt]) as Hfirst.
  { vm_compute. reflexivity. }
  split; [exact Hfirst|].
  exact (detectDuplicates_idempotent _ _ Hfirst).
Defined.

(** X6: Two imports in a row leave the store that one import of all their
    rows leaves. *)
Theorem ingest_twice_is_ingest_once (prev rows1 rows2 store1 : list Address.t) :
  ingest rows1 prev = Some store1 →
  ingest rows2 store1 = ingest (rows1 ++ rows2) prev.
Proof.
  unfold ingest. rewrite detectDuplicates_flags. intros [= <-].
  rewrite detectDuplicates_ignores_flags, app_assoc. reflexivity.
Qed.

Lemma ingest_twice_is_ingest_once_witness :
  ingest [acme] [bolt] = Some [bolt; acme]
  ∧ ingest [acme_again] [bolt; acme] = ingest [acme; acme_again] [bolt].
Proof.
  assert (ingest [acme] [bolt] = Some [bolt; acme]) as Hfirst.
  { vm_compute. reflexivity. }
  split; [exact Hfirst|].
  exact (ingest_twice_is_ingest_once [bolt] [acme] [acme_again] _ Hfirst).
Defined.

(** ** Geocoder results *)

Lemma map_unchanged {A : Type} (f : A → A) (l : list A) :
  (∀ x, In x l → f x = x) → List.map f l = l.
Proof.
  induction l as [|x l IH]; intros Hf; simpl; [reflexivity|].
  rewrite Hf by now left. rewrite IH; [reflexivity|].
  intros y Hy. apply Hf. now right.
Qed.

(** X7: A geocoder result lands on the records with the id it was asked for:
    it sets their two coordinates and nothing else, leaves every other
    record as it is, and changes nothing at all when no record has the id,
    as when the record was deleted while the call was pending. *)
Theorem geocode_result_lands_on_its_record
    (id : string) (result : LatLng) (prev : list Address.t) :
  Forall2 (λ old new,
             (Address.id old = id →
              new = Address.with_coordinates (Some (lat result)) (Some (lng result)) old)
             ∧ (Address.id old ≠ id → new = old))
          prev (apply_geocode id result prev)
  ∧ (¬ In id (List.map Address.id prev) → apply_geocode id result prev = prev)
  ∧ apply_geocode id result (delete_address id prev) = delete_address id prev.
Proof.
  assert (∀ l, ¬ In id (List.map Address.id l) → apply_geocode id result l = l)
    as Habsent.
  { intros l Hnot. unfold apply_geocode. apply map_unchanged. intros a Ha.
    destruct (strict_eq (Address.id a) id) eqn:E; [|reflexivity].
    exfalso. apply Hnot. apply strict_eq_true in E. rewrite <- E.
    now apply in_map. }
  split; [|split].
  - unfold apply_geocode. apply Forall2_map_all. intros a.
    destruct (strict_eq (Address.id a) id) eqn:E.
    + split; [reflexivity|]. apply strict_eq_true in E. congruence.
    + split; [|reflexivity]. apply strict_eq_false in E. congruence.
  - apply Habsent.
  - apply Habsent. intros [a [Hid Ha]]%in_map_iff.
    apply delete_address_keeps in Ha as [_ Hne]. contradiction.
Qed.

Lemma geocode_result_lands_on_its_record_witness :
  ¬ In "tab-1-2" (List.map Address.id [acme])
  ∧ apply_geocode "tab-1-2" bolt_location [acme] = [acme].
Proof.
  assert (¬ In "tab-1-2" (List.map Address.id [acme])) as Hnot.
  { simpl. intros [H | []]. discriminate. }
  split; [exact Hnot|].
  destruct (geocode_result_lands_on_its_record "tab-1-2" bolt_location [acme])
    as [_ [Habsent _]].
  apply Habsent. exact Hnot.
Defined.

(** X8: Results for different records can be applied in either order. *)
Theorem geocode_results_commute
    (id1 id2 : string) (result1 result2 : LatLng) (prev : list Address.t) :
  id1 ≠ id2 →
  apply_geocode id1 result1 (apply_geocode id2 result2 prev)
  = apply_geocode id2 result2 (apply_geocode id1 result1 prev).
Proof.
  intros Hne. unfold apply_geocode. rewrite !List.map_map.
  apply List.map_ext. intros a.
  destruct (strict_eq (Address.id a) id1) eqn:E1,
           (strict_eq (Address.id a) id2) eqn:E2; simpl;
    rewrite ?E1, ?E2; try reflexivity.
  apply strict_eq_true in E1, E2. congruence.
Qed.

Lemma geocode_results_commute_witness :
  "tab-1-0" ≠ "tab-1-2"
  ∧ apply_geocode "tab-1-0" acme_location
      (apply_geocode "tab-1-2" bolt_location [acme; bolt])
    = [acme_located; bolt_located].
Proof.
  assert ("tab-1-0" ≠ "tab-1-2") as Hne by discriminate.
  split; [exact Hne|].
  rewrite (geocode_results_commute _ _ acme_location bolt_location [acme; bolt] Hne).
  reflexivity.
Defined.

(** X9: Once a result with two non-zero coordinates is applied, the records it
    lands on have coordinates: "geocode all" does not send them again and
    the table does not show them as pending. *)
Theorem geocoded_record_leaves_the_queue
    (id : string) (result : LatLng) (prev : list Address.t) (addr : Address.t) :
  truthy_number (Some (lat result)) = true →
  truthy_number (Some (lng result)) = true →
  In addr (apply_geocode id result prev) →
  Address.id addr = id →
  Address.has_coordinates addr = true
  ∧ ¬ In addr (addressesToGeocode (apply_geocode id result prev))
  ∧ getGeocodingStatus addr ≠ Some status_pending.
Proof.
  intros Hlat Hlng Hin Hid.
  assert (Address.has_coordinates addr = true
          ∧ Address.lacks_coordinates addr = false) as [Hhas Hlacks].
  { unfold apply_geocode in Hin. apply in_map_iff in Hin as [old [Hnew _]].
    destruct (strict_eq (Address.id old) id) eqn:E.
    - subst addr. unfold Address.has_coordinates, Address.lacks_coordinates.
      unfold Address.with_coordinates. cbn [Address.latitude Address.longitude].
      rewrite Hlat, Hlng. split; reflexivity.
    - exfalso. apply strict_eq_false in E. congruence. }
  split; [exact Hhas|]. split.
  - unfold addressesToGeocode. intros [_ H]%filter_In.
    rewrite Hlacks, andb_false_r in H. discriminate.
  - unfold getGeocodingStatus. rewrite Hhas.
    destruct (negb _); discriminate.
Qed.

Lemma geocoded_record_leaves_the_queue_witness :
  In bolt_located (apply_geocode "tab-1-2" bolt_location [acme; bolt])
  ∧ ¬ In bolt_located
        (addressesToGeocode (apply_geocode "tab-1-2" bolt_location [acme; bolt])).
Proof.
  assert (In bolt_located (apply_geocode "tab-1-2" bolt_location [acme; bolt])) as Hin.
  { right. left. reflexivity. }
  split; [exact Hin|].
  destruct (geocoded_record_leaves_the_queue "tab-1-2" bolt_location [acme; bolt]
              bolt_located eq_refl eq_refl Hin eq_refl) as [_ [Hqueue _]].
  exact Hqueue.
Defined.

(** ** Geocode all *)

(** X10: "Geocode all" queues exactly the records that the statistics count as
    errors, in store order: with none it only alerts, which the enabled
    button never leads to; otherwise it raises the busy flag and sends the
    text of the first one. *)
Theorem geocode_all_queues_the_errors (st : AppState) :
  errors (compute_stats (addresses st)) = errorRows (addresses st)
  ∧ (errorRows (addresses st) = 0%nat →
     handleGeocodeAll_begin st = (st, [alert "No addresses to geocode."], []))
  ∧ (geocode_all_disabled st = false →
     ∃ addr rest,
       handleGeocodeAll_begin st
       = (setIsGeocoding true st, [geocodeAddress (Address.address addr)], addr :: rest)
       ∧ addr :: rest = addressesToGeocode (addresses st)
       ∧ length (addr :: rest) = errorRows (addresses st)).
Proof.
  split; [reflexivity|]. unfold handleGeocodeAll_begin, geocode_all_disabled, errorRows.
  fold (addressesToGeocode (addresses st)). split.
  - intros Hnone. destruct (addressesToGeocode (addresses st)); [reflexivity|].
    discriminate.
  - intros Henabled. apply orb_false_elim in Henabled as [Hsome _].
    destruct (addressesToGeocode (addresses st)) as [|addr rest]; [discriminate|].
    exists addr, rest. repeat split.
Qed.

Lemma geocode_all_queues_the_errors_witness :
  geocode_all_disabled (mkApp [acme; bolt_located; on_equator] false
                              (StartingPoint.mk "" None None false)
                              false false false None 0)
  = false
  ∧ ∃ rest,
      handleGeocodeAll_begin (mkApp [acme; bolt_located; on_equator] false
                                    (StartingPoint.mk "" None None false)
                                    false false false None 0)
      = (mkApp [acme; bolt_located; on_equator] true
               (StartingPoint.mk "" None None false) false false false None 0,
         [geocodeAddress "1 Main St"], acme :: rest).
Proof.
  split; [reflexivity|].
  destruct (geocode_all_queues_the_errors
              (mkApp [acme; bolt_located; on_equator] false
                     (StartingPoint.mk "" None None false) false false false None 0))
    as [_ [_ Henabled]].
  destruct (Henabled eq_refl) as [addr [rest [Hbegin [Hqueue _]]]].
  injection Hqueue as -> ->. eexists. exact Hbegin.
Defined.

(** X11: A batch during which no call throws makes one call per queued record,
    in order, with the text the record had when the batch started, and
    ends with the busy flag down, the same records in the store and
    nothing said to the user. *)
Theorem geocode_all_runs_through (rest : list Address.t) :
  ∀ (addr : Address.t) (outcomes : list GeocodeOutcome) (st : AppState),
    Forall (λ outcome, outcome ≠ geocode_throws) outcomes →
    length outcomes = length (addr :: rest) →
    ∃ st',
      geocodeAll_turns (addr :: rest) outcomes st
      = (st', List.map (λ a, geocodeAddress (Address.address a)) rest, [])
      ∧ isGeocoding st' = false
      ∧ List.map Address.id (addresses st') = List.map Address.id (addresses st)
      ∧ startingPoint st' = startingPoint st.
Proof.
  assert (∀ id result l,
            List.map Address.id (apply_geocode id result l) = List.map Address.id l)
    as Hids.
  { intros id result l. unfold apply_geocode. rewrite List.map_map.
    apply List.map_ext. intros a. now destruct (strict_eq (Address.id a) id). }
  induction rest as [|next rest IH]; intros addr [|outcome outcomes] st Hok Hlen;
    try discriminate.
  - destruct outcomes; [|discriminate]. apply Forall_cons in Hok as [Hok _].
    destruct outcome; simpl; [| |contradiction]; eexists; repeat split.
    simpl. apply Hids.
  - apply Forall_cons in Hok as [Hok Hoks]. injection Hlen as Hlen.
    destruct outcome as [result| |]; [| |contradiction].
    + destruct (IH next outcomes
                  (setAddresses (apply_geocode (Address.id addr) result) st) Hoks Hlen)
        as [st' [Hrun [Hflag [Hsame Hstart]]]].
      exists st'. simpl in *. rewrite Hrun. repeat split; trivial.
      rewrite Hsame. apply Hids.
    + destruct (IH next outcomes st Hoks Hlen) as [st' [Hrun [Hflag [Hsame Hstart]]]].
      exists st'. simpl in *. rewrite Hrun. repeat split; trivial.
Qed.

Lemma geocode_all_runs_through_witness :
  Forall (λ outcome, outcome ≠ geocode_throws) [geocode_found acme_location; geocode_null]
  ∧ ∃ st',
      geocodeAll_turns [acme; bolt] [geocode_found acme_location; geocode_null]
                       (setIsGeocoding true (setAddresses (λ _, [acme; bolt]) initial_app))
      = (st', [geocodeAddress "9 Oak Ave"], [])
      ∧ isGeocoding st' = false.
Proof.
  assert (Forall (λ outcome, outcome ≠ geocode_throws)
                 [geocode_found acme_location; geocode_null]) as Hok.
  { repeat constructor; discriminate. }
  split; [exact Hok|].
  destruct (geocode_all_runs_through [bolt] acme
              [geocode_found acme_location; geocode_null]
              (setIsGeocoding true (setAddresses (λ _, [acme; bolt]) initial_app))
              Hok eq_refl) as [st' [Hrun [Hflag _]]].
  exists st'. split; [exact Hrun | exact Hflag].
Defined.

(** ** Statistics, statuses and markers *)

Lemma filter_length_split {A : Type} (f g h : A → bool) (l : list A) :
  (∀ x, (if f x then 1 else 0) + (if g x then 1 else 0) + (if h x then 1 else 0) = 1)%nat →
  length l
  = (length (List.filter f l) + length (List.filter g l) + length (List.filter h l))%nat.
Proof.
  intros Hone. induction l as [|x l IH]; simpl; [reflexivity|].
  specialize (Hone x). destruct (f x), (g x), (h x); simpl in *; lia.
Qed.

(** X12: The statistics split the store three ways: a record is counted as
    geocoded, or as an error, or it has neither coordinates nor an address
    text and is counted in the total only.  The error count is the number
    of rows shown as pending; the geocoded count is the number of markers
    on the map once the map is loaded, and no marker is drawn before that
    or after a remount. *)
Theorem stats_split_the_store (r : MapRefs) (isMapLoaded : bool)
    (addresses : list Address.t) :
  total (compute_stats addresses)
  = (geocoded (compute_stats addresses) + errors (compute_stats addresses)
     + length (blank_rows addresses))%nat
  ∧ errors (compute_stats addresses)
    = length (List.filter
                (λ addr, match getGeocodingStatus addr with
                         | Some status_pending => true
                         | _ => false
                         end)
                addresses)
  ∧ length (markers r isMapLoaded addresses)
    = (if mapInstanceRef r && isMapLoaded then geocoded (compute_stats addresses)
       else 0%nat)
  ∧ markers unmounted_refs isMapLoaded addresses = [].
Proof.
  split; [|split; [|split]].
  - unfold compute_stats, blank_rows. simpl. apply filter_length_split.
    intros a. unfold Address.has_coordinates, Address.lacks_coordinates.
    destruct (truthy_string (Address.address a)),
             (truthy_number (Address.latitude a)),
             (truthy_number (Address.longitude a)); reflexivity.
  - unfold compute_stats. simpl. f_equal. apply List.filter_ext. intros a.
    unfold getGeocodingStatus, Address.has_coordinates, Address.lacks_coordinates.
    destruct (truthy_string (Address.address a)),
             (truthy_number (Address.latitude a)),
             (truthy_number (Address.longitude a)); reflexivity.
  - unfold markers, geocodedAddresses, compute_stats.
    destruct (mapInstanceRef r), isMapLoaded; simpl; try reflexivity.
    apply length_map.
  - reflexivity.
Qed.

Lemma marker_color_cases (address : Address.t) :
  marker_color (marker_of address)
  = if truthy_bool (Address.isOnRoute address) then route_green
    else if truthy_bool (Address.isSelected address) then selected_blue
    else regular_red.
Proof.
  unfold marker_of.
  destruct (truthy_bool (Address.isOnRoute address));
    [|destruct (truthy_bool (Address.isSelected address))]; reflexivity.
Qed.

Lemma markers_Forall (P : Marker → Prop) (f : Address.t → Address.t)
    (r : MapRefs) (isMapLoaded : bool) (addresses : list Address.t) :
  (∀ a, P (marker_of (f a))) →
  Forall P (markers r isMapLoaded (List.map f addresses)).
Proof.
  intros HP. unfold markers, geocodedAddresses.
  destruct (negb (mapInstanceRef r) || negb isMapLoaded); [constructor|].
  apply Forall_forall.
  intros m [a [<- [Ha _]%filter_In]]%list_elem_of_In%in_map_iff.
  apply in_map_iff in Ha as [a0 [<- _]]. apply HP.
Qed.

(** X13: Right after a route arrives no marker is blue (every selected record
    is on the route); after "clear route" no marker is green; after "clear
    all points" every marker is red. *)
Theorem marker_colours_follow_the_route (r : MapRefs) (isMapLoaded : bool)
    (route : DirectionsResult) (st : AppState) :
  Forall (λ m, marker_color m ≠ selected_blue)
         (markers r isMapLoaded (addresses (handleRouteCreated route st)))
  ∧ Forall (λ m, marker_color m ≠ route_green)
           (markers r isMapLoaded (addresses (handleClearRoute st)))
  ∧ Forall (λ m, marker_color m = regular_red)
           (markers r isMapLoaded (addresses (handleClearPoints st))).
Proof.
  split; [|split]; simpl; apply markers_Forall; intros a;
    rewrite marker_color_cases; simpl.
  - destruct (truthy_bool (Address.isSelected a)); discriminate.
  - destruct (truthy_bool (Address.isSelected a)); discriminate.
  - reflexivity.
Qed.

(** ** The directions request *)

Lemma truthy_number_Some (x : option number) :
  truthy_number x = true → ∃ v, x = Some v ∧ non_null x = v.
Proof. destruct x as [v|]; [eauto|discriminate]. Qed.

Lemma Forall2_map_image {A B : Type} (R : A → B → Prop) (f : A → B) (l : list A) :
  (∀ x, In x l → R x (f x)) → Forall2 R l (List.map f l).
Proof.
  induction l as [|x l IH]; intros HR; simpl; constructor.
  - apply HR. now left.
  - apply IH. intros y Hy. apply HR. now right.
Qed.

Lemma route_stops_located (addresses : list Address.t) (stop : Address.t) :
  In stop (route_stops addresses) →
  truthy_number (Address.latitude stop) = true
  ∧ truthy_number (Address.longitude stop) = true.
Proof.
  unfold route_stops. intros [_ Htruthy]%filter_In.
  apply andb_prop in Htruthy as [Htruthy Hlo].
  apply andb_prop in Htruthy as [_ Hla]. auto.
Qed.

(** X14: A request that [createRoute] sends is a round trip from the starting
    point's coordinates through the selected records that have
    coordinates, each as a stopover and in store order, between 1 and 25 of
    them, with waypoint optimisation asked for. *)
Theorem route_request_shape (addresses : list Address.t) (startingPoint : StartingPoint.t)
    (request : DirectionsRequest) :
  createRoute_begin addresses startingPoint = inr request →
  (1 ≤ length (route_stops addresses) ≤ 25)%nat
  ∧ Forall2 (λ stop waypoint,
               Address.latitude stop = Some (lat (fst waypoint))
               ∧ Address.longitude stop = Some (lng (fst waypoint))
               ∧ snd waypoint = true)
            (route_stops addresses) (waypoints request)
  ∧ StartingPoint.latitude startingPoint = Some (lat (origin request))
  ∧ StartingPoint.longitude startingPoint = Some (lng (origin request))
  ∧ destination request = origin request
  ∧ optimizeWaypoints request = true
  ∧ travelMode request = "DRIVING".
Proof.
  unfold createRoute_begin, calculateOptimalRoute_begin. rewrite length_map.
  destruct (Nat.eqb_spec (length (route_stops addresses)) 0) as [|Hsome];
    [discriminate|]. simpl.
  destruct (truthy_number (StartingPoint.latitude startingPoint)) eqn:Hlat;
    [|discriminate].
  destruct (truthy_number (StartingPoint.longitude startingPoint)) eqn:Hlng;
    [|discriminate]. simpl.
  destruct (Nat.ltb_spec 25 (length (route_stops addresses))) as [|Hcap];
    [discriminate|].
  intros [= <-]. simpl. split; [lia|]. split.
  - rewrite List.map_map. apply Forall2_map_image. intros stop Hstop. simpl.
    apply route_stops_located in Hstop as [Hla Hlo].
    apply truthy_number_Some in Hla as [la [Hla ->]].
    apply truthy_number_Some in Hlo as [lo [Hlo ->]]. auto.
  - apply truthy_number_Some in Hlat as [la [Hla ->]].
    apply truthy_number_Some in Hlng as [lo [Hlo ->]]. auto.
Qed.

Example route_request_for_both :
  ∃ request,
    createRoute_begin [acme_located; Address.with_isSelected (Some true) bolt_located]
      (StartingPoint.mk default_starting_address
                        (Some 38.625%float) (Some (-77.125)%float) true)
    = inr request
    ∧ waypoints request = [(bolt_location, true)].
Proof. eexists. split; reflexivity. Qed.

Lemma route_request_shape_witness :
  ∃ request,
    createRoute_begin [acme_located; Address.with_isSelected (Some true) bolt_located]
      (StartingPoint.mk default_starting_address
                        (Some 38.625%float) (Some (-77.125)%float) true)
    = inr request
    ∧ destination request = origin request.
Proof.
  destruct route_request_for_both as [request [Hrequest _]].
  exists request. split; [exact Hrequest|].
  destruct (route_request_shape _ _ _ Hrequest) as [_ [_ [_ [_ [Hround _]]]]].
  exact Hround.
Defined.

Lemma route_stops_selected (st : AppState) :
  (length (route_stops (addresses st)) ≤ length (selectedAddresses st))%nat.
Proof.
  unfold route_stops, selectedAddresses.
  induction (addresses st) as [|a l IH]; simpl; [lia|].
  destruct (truthy_bool (Address.isSelected a)); simpl.
  - destruct (truthy_number (Address.latitude a) && truthy_number (Address.longitude a));
      simpl; lia.
  - exact IH.
Qed.

(** X15: When "create route" lets a request through, the route effect run on
    the same state never reports too many waypoints: it sends the request,
    unless no selected record has coordinates or a coordinate of the
    starting point is missing or zero, which it reports as such. *)
Theorem accepted_request_is_within_the_cap (st : AppState) :
  handleCreateRoute st = (setIsCreatingRoute true st, []) →
  (∃ request, createRoute_begin (addresses st) (startingPoint st) = inr request)
  ∨ (createRoute_begin (addresses st) (startingPoint st)
     = inl "No valid addresses or starting point"
     ∧ (route_stops (addresses st) = []
        ∨ truthy_number (StartingPoint.latitude (startingPoint st)) = false
        ∨ truthy_number (StartingPoint.longitude (startingPoint st)) = false)).
Proof.
  unfold handleCreateRoute.
  destruct (negb (StartingPoint.isValid (startingPoint st))).
  { intros Habsurd. congruence. }
  destruct (Nat.eqb_spec (length (selectedAddresses st)) 0).
  { intros Habsurd. congruence. }
  destruct (Nat.ltb_spec 25 (length (selectedAddresses st))) as [|Hcap].
  { intros Habsurd. congruence. }
  intros _. pose proof (route_stops_selected st) as Hstops.
  unfold createRoute_begin, calculateOptimalRoute_begin. rewrite length_map.
  destruct (route_stops (addresses st)) as [|stop stops] eqn:Hroute.
  { right. split; [reflexivity|]. now left. }
  simpl length. simpl Nat.eqb. simpl orb.
  destruct (truthy_number (StartingPoint.latitude (startingPoint st)));
    [|right; split; [reflexivity|auto]].
  destruct (truthy_number (StartingPoint.longitude (startingPoint st)));
    [|right; split; [reflexivity|auto]].
  simpl. left.
  destruct (Nat.ltb_spec 25 (S (length stops))) as [Hover|_]; [simpl in Hstops; lia|].
  eauto.
Qed.

Lemma accepted_request_is_within_the_cap_witness :
  handleCreateRoute ready = (setIsCreatingRoute true ready, [])
  ∧ ∃ request, createRoute_begin (addresses ready) (startingPoint ready) = inr request.
Proof.
  assert (handleCreateRoute ready = (setIsCreatingRoute true ready, [])) as Haccepted.
  { vm_compute. reflexivity. }
  split; [exact Haccepted|].
  destruct (accepted_request_is_within_the_cap ready Haccepted)
    as [Hsent | [Hfailed _]]; [exact Hsent|].
  vm_compute in Hfailed. discriminate.
Defined.

(** ** The itinerary *)

Lemma mapM_id_Some {A : Type} (l : list (option A)) (k : list A) :
  mapM (λ cell : option A, cell) l = Some k ↔ l = List.map Some k.
Proof.
  rewrite mapM_Some. split.
  - induction 1 as [|x y l k Hxy _ IH]; simpl; [reflexivity|now rewrite Hxy, IH].
  - intros ->. induction k; simpl; constructor; auto.
Qed.

Lemma route_table_cells (selected : list Address.t) (order : list nat) :
  ∀ (number : nat → nat),
    imap (λ idx (address : option Address.t),
            a ← address;
            Some (pretty (number idx), or_dash (Address.businessName a),
                  or_dash (Address.address a)))
         (List.map (λ index, selected !! index) order)
    = imap (λ idx index,
              a ← selected !! index;
              Some (pretty (number idx), or_dash (Address.businessName a),
                    or_dash (Address.address a)))
           order.
Proof.
  induction order as [|index order IH]; intros number; simpl; [reflexivity|].
  f_equal. apply (IH (number ∘ S)).
Qed.

Lemma route_table_cell_rows (selected : list Address.t) (startingPoint : StartingPoint.t)
    (route : DirectionsResult) (tableBody : list (string * string * string)) :
  route_table selected startingPoint route = Some tableBody →
  ∃ stops,
    tableBody
    = (stops ++ [(pretty (length (waypoint_order route) + 1)%nat, "Return to Start",
                  or_dash (StartingPoint.address startingPoint))])%list
    ∧ length stops = length (waypoint_order route)
    ∧ ∀ position index,
        waypoint_order route !! position = Some index →
        ∃ a, selected !! index = Some a
             ∧ stops !! position
               = Some (pretty (position + 1)%nat, or_dash (Address.businessName a),
                       or_dash (Address.address a)).
Proof.
  unfold route_table. rewrite length_map.
  rewrite (route_table_cells selected (waypoint_order route) (λ idx, (idx + 1)%nat)).
  set (cell := λ (idx index : nat),
         selected !! index
         ≫= λ a, Some (pretty (idx + 1)%nat, or_dash (Address.businessName a),
                        or_dash (Address.address a))).
  destruct (mapM (λ c : option (string * string * string), c)
                 (imap cell (waypoint_order route))) as [stops|] eqn:Hcells;
    [|discriminate].
  simpl. intros [= <-]. apply mapM_id_Some in Hcells.
  assert (length stops = length (waypoint_order route)) as Hlength.
  { apply (f_equal length) in Hcells.
    rewrite length_imap, length_map in Hcells. congruence. }
  exists stops. split; [reflexivity|]. split; [exact Hlength|].
  intros position index Hposition.
  assert (imap cell (waypoint_order route) !! position = Some (cell position index))
    as Hlookup by (rewrite list_lookup_imap, Hposition; reflexivity).
  rewrite Hcells, lookup_map in Hlookup.
  destruct (stops !! position) as [row|]; [|discriminate].
  simpl in Hlookup. unfold cell in Hlookup.
  destruct (selected !! index) as [a|]; [|discriminate].
  exists a. split; [reflexivity|]. simpl in Hlookup. congruence.
Qed.

Lemma route_table_defined (selected : list Address.t) (startingPoint : StartingPoint.t)
    (route : DirectionsResult) :
  Forall (λ index, (index < length selected)%nat) (waypoint_order route) →
  is_Some (route_table selected startingPoint route).
Proof.
  intros Hin. unfold route_table.
  rewrite (route_table_cells selected (waypoint_order route) (λ idx, (idx + 1)%nat)).
  match goal with
  | |- is_Some (mapM ?f ?cells ≫= _) =>
      assert (is_Some (mapM f cells)) as [stops ->]; [|simpl; eauto]
  end.
  apply mapM_is_Some. apply Forall_lookup. intros position c Hc.
  rewrite list_lookup_imap in Hc.
  destruct (waypoint_order route !! position) as [index|] eqn:Hposition;
    [|discriminate].
  injection Hc as <-.
  rewrite Forall_lookup in Hin. apply Hin in Hposition.
  apply lookup_lt_is_Some in Hposition as [a ->]. simpl. eauto.
Qed.

(** X16: The stops table has one row per waypoint, numbered from 1 and holding
    the name and address of the selected record the waypoint points at (a
    dash for an empty one), then the return to the start; the table cannot
    be built, and the download alerts, exactly when a waypoint points past
    the current selection. *)
Theorem route_table_rows (selected : list Address.t) (startingPoint : StartingPoint.t)
    (route : DirectionsResult) :
  (Forall (λ index, (index < length selected)%nat) (waypoint_order route) →
   ∃ stops,
     route_table selected startingPoint route
     = Some (stops ++ [(pretty (length (waypoint_order route) + 1)%nat, "Return to Start",
                        or_dash (StartingPoint.address startingPoint))])%list
     ∧ length stops = length (waypoint_order route)
     ∧ ∀ position index,
         waypoint_order route !! position = Some index →
         ∃ a, selected !! index = Some a
              ∧ stops !! position
                = Some (pretty (position + 1)%nat, or_dash (Address.businessName a),
                        or_dash (Address.address a)))
  ∧ (¬ Forall (λ index, (index < length selected)%nat) (waypoint_order route) →
     route_table selected startingPoint route = None).
Proof.
  split.
  - intros Hin.
    destruct (route_table_defined selected startingPoint route Hin) as [body Hbody].
    destruct (route_table_cell_rows _ _ _ _ Hbody) as [stops [-> Hstops]].
    exists stops. split; [exact Hbody | exact Hstops].
  - intros Hout.
    destruct (route_table selected startingPoint route) as [body|] eqn:Hbody;
      [|reflexivity].
    exfalso. apply Hout. apply Forall_lookup. intros position index Hposition.
    destruct (route_table_cell_rows _ _ _ _ Hbody) as [stops [_ [_ Hstops]]].
    destruct (Hstops position index Hposition) as [a [Ha _]].
    now apply lookup_lt_Some in Ha.
Qed.

Example itinerary_of_routed :
  handleDownloadRoute routed
  = inr [("1", "Bolt", "9 Oak Ave"); ("2", "Acme", "1 Main St");
         ("3", "Return to Start", default_starting_address)].
Proof. vm_compute. reflexivity. Qed.

Lemma route_table_rows_witness :
  Forall (λ index, (index < length (selectedAddresses routed))%nat)
         (waypoint_order swapped_route)
  ∧ ∃ stops,
      route_table (selectedAddresses routed) (startingPoint routed) swapped_route
      = Some (stops ++ [("3", "Return to Start", default_starting_address)])%list
      ∧ length stops = 2%nat.
Proof.
  assert (Forall (λ index, (index < length (selectedAddresses routed))%nat)
                 (waypoint_order swapped_route)) as Hin.
  { repeat constructor. }
  split; [exact Hin|].
  destruct (route_table_rows (selectedAddresses routed) (startingPoint routed)
              swapped_route) as [Hrows _].
  destruct (Hrows Hin) as [stops [Htable [Hlength _]]].
  exists stops. split; [exact Htable | exact Hlength].
Defined.

(** X17: When the waypoint order is a permutation of the positions of the
    current selection, the itinerary lists every selected record exactly
    once before the return to the start. *)
Theorem itinerary_lists_every_stop_once (selected : list Address.t)
    (startingPoint : StartingPoint.t) (route : DirectionsResult) :
  Permutation (waypoint_order route) (seq 0 (length selected)) →
  ∃ stops,
    route_table selected startingPoint route
    = Some (stops ++ [(pretty (length selected + 1)%nat, "Return to Start",
                       or_dash (StartingPoint.address startingPoint))])%list
    ∧ Permutation
        (List.map (λ row : string * string * string, (snd (fst row), snd row)) stops)
        (List.map (λ a, (or_dash (Address.businessName a), or_dash (Address.address a)))
                  selected).
Proof.
  intros Hperm.
  assert (Forall (λ index, (index < length selected)%nat) (waypoint_order route))
    as Hin.
  { apply Forall_forall. intros index Hindex.
    rewrite Hperm in Hindex. apply elem_of_seq in Hindex. lia. }
  destruct (route_table_defined selected startingPoint route Hin) as [body Htable].
  destruct (route_table_cell_rows _ _ _ _ Htable) as [stops [-> [Hlength Hstops]]].
  exists stops. split.
  { rewrite Htable. do 4 f_equal.
    apply Permutation_length in Hperm. now rewrite Hperm, length_seq. }
  set (cell := λ a : Address.t,
         (or_dash (Address.businessName a), or_dash (Address.address a))).
  set (entry := λ index : nat,
         match selected !! index with Some a => cell a | None => ("", "") end).
  assert (List.map (λ row : string * string * string, (snd (fst row), snd row)) stops
          = List.map entry (waypoint_order route)) as ->.
  { apply list_eq. intros position. rewrite !lookup_map.
    destruct (waypoint_order route !! position) as [index|] eqn:Hposition.
    - destruct (Hstops position index Hposition) as [a [Ha ->]].
      simpl. unfold entry. rewrite Ha. reflexivity.
    - apply lookup_ge_None in Hposition. rewrite <- Hlength in Hposition.
      apply lookup_ge_None in Hposition. now rewrite Hposition. }
  assert (List.map cell selected = List.map entry (seq 0 (length selected))) as ->.
  { apply list_eq. intros position. rewrite !lookup_map.
    destruct (selected !! position) as [a|] eqn:Ha.
    - rewrite lookup_seq_lt by now apply lookup_lt_Some in Ha.
      simpl. unfold entry. now rewrite Ha.
    - rewrite lookup_seq_ge by now apply lookup_ge_None in Ha. reflexivity. }
  now apply Permutation_map.
Qed.

Lemma itinerary_lists_every_stop_once_witness :
  Permutation (waypoint_order swapped_route) (seq 0 (length (selectedAddresses routed)))
  ∧ ∃ stops,
      route_table (selectedAddresses routed) (startingPoint routed) swapped_route
      = Some (stops ++ [("3", "Return to Start", default_starting_address)])%list.
Proof.
  assert (Permutation (waypoint_order swapped_route)
                      (seq 0 (length (selectedAddresses routed)))) as Hperm.
  { apply perm_swap. }
  split; [exact Hperm|].
  destruct (itinerary_lists_every_stop_once (selectedAddresses routed)
              (startingPoint routed) swapped_route Hperm) as [stops [Htable _]].
  exists stops. exact Htable.
Defined.

(** X18: Nothing can be downloaded once the route is cleared, the points are
    cleared, the table is cleared or the starting address is edited: the
    download then only alerts that no route is available. *)
Theorem download_refused_after_clearing (st : AppState) (text : string) :
  handleDownloadRoute (handleClearRoute st) = inl "No route available to download."
  ∧ handleDownloadRoute (handleClearPoints st) = inl "No route available to download."
  ∧ handleDownloadRoute (handleClearTable true st)
    = inl "No route available to download."
  ∧ handleDownloadRoute (handleStartingAddressChange text st)
    = inl "No route available to download.".
Proof.
  repeat split. unfold handleDownloadRoute. simpl.
  destruct (currentRoute st); reflexivity.
Qed.

(** ** Selecting and highlighting compose *)

Section Selections.

Variable containsLocation : LatLng → Polygon → bool.

Lemma select_by_region_map (polygon : Polygon) (store : list Address.t) :
  NoDup (List.map Address.id store) →
  select_by_region containsLocation polygon store
  = List.map (λ a,
      Address.with_isHighlighted (Some (inside_polygon containsLocation polygon a))
        (Address.with_isSelected (Some (inside_polygon containsLocation polygon a)) a))
      store.
Proof.
  intros Hnd. unfold select_by_region, polygon_complete.
  apply List.map_ext_in. intros a Ha.
  now rewrite (some_selected_inside containsLocation polygon store a Hnd Ha).
Qed.

Lemma select_by_region_ids (polygon : Polygon) (store : list Address.t) :
  List.map Address.id (select_by_region containsLocation polygon store)
  = List.map Address.id store.
Proof.
  unfold select_by_region, polygon_complete. rewrite List.map_map.
  apply List.map_ext. reflexivity.
Qed.

(** X19: In a store with unique ids, the store that an accepted region leaves
    does not depend on the regions accepted before it: selecting twice is
    selecting with the last region, and accepting the same region again
    changes nothing. *)
Theorem last_region_decides (first last : Polygon) (store : list Address.t) :
  NoDup (List.map Address.id store) →
  select_by_region containsLocation last
    (select_by_region containsLocation first store)
  = select_by_region containsLocation last store
  ∧ select_by_region containsLocation last
      (select_by_region containsLocation last store)
    = select_by_region containsLocation last store.
Proof.
  intros Hnd.
  assert (∀ polygon,
            select_by_region containsLocation last
              (select_by_region containsLocation polygon store)
            = select_by_region containsLocation last store) as Hlast.
  { intros polygon.
    rewrite (select_by_region_map last (select_by_region containsLocation polygon store))
      by now rewrite select_by_region_ids.
    rewrite (select_by_region_map polygon store Hnd),
            (select_by_region_map last store Hnd), List.map_map.
    apply List.map_ext. reflexivity. }
  split; apply Hlast.
Qed.

End Selections.

Lemma last_region_decides_witness :
  NoDup (List.map Address.id [acme_located; bolt_located])
  ∧ select_by_region box_contains narrow_box
      (select_by_region box_contains wide_box [acme_located; bolt_located])
    = select_by_region box_contains narrow_box [acme_located; bolt_located].
Proof.
  assert (NoDup (List.map Address.id [acme_located; bolt_located])) as Hnd.
  { apply (bool_decide_unpack (NoDup (List.map Address.id [acme_located; bolt_located]))).
    vm_compute. exact I. }
  split; [exact Hnd|].
  destruct (last_region_decides box_contains wide_box narrow_box
              [acme_located; bolt_located] Hnd) as [Hlast _].
  exact Hlast.
Defined.

(** X20: In a store with unique ids, a click on a record's marker highlights
    that record and no other, and changes no other field of any record. *)
Theorem click_highlights_one_record (clicked : Address.t) (st : AppState) :
  NoDup (List.map Address.id (addresses st)) →
  In clicked (addresses st) →
  Forall2 (λ old new,
             (Address.isHighlighted new = Some true ↔ old = clicked)
             ∧ (old ≠ clicked → Address.isHighlighted new = Some false)
             ∧ same_but_highlight old new)
          (addresses st) (addresses (handleAddressClick clicked st)).
Proof.
  intros Hnd Hclicked. simpl. apply Forall2_map_elements. intros old Hold. simpl.
  destruct (strict_eq (Address.id old) (Address.id clicked)) eqn:E.
  - apply strict_eq_true in E.
    assert (old = clicked) as -> by (eapply unique_id_determines; eauto).
    repeat split; trivial. intros Hne. now contradiction Hne.
  - apply strict_eq_false in E.
    assert (old ≠ clicked) as Hne by congruence.
    repeat split; trivial; try discriminate. intros ->. contradiction.
Qed.

Lemma click_highlights_one_record_witness :
  NoDup (List.map Address.id [acme; bolt])
  ∧ In bolt [acme; bolt]
  ∧ length (addresses (handleAddressClick bolt
                         (setAddresses (λ _, [acme; bolt]) initial_app)))
    = 2%nat.
Proof.
  assert (NoDup (List.map Address.id [acme; bolt])) as Hnd.
  { apply (bool_decide_unpack (NoDup (List.map Address.id [acme; bolt]))).
    vm_compute. exact I. }
  assert (In bolt [acme; bolt]) as Hin by (right; left; reflexivity).
  split; [exact Hnd|]. split; [exact Hin|].
  pose proof (click_highlights_one_record bolt
                (setAddresses (λ _, [acme; bolt]) initial_app) Hnd Hin) as Hclick.
  apply Forall2_length in Hclick. symmetry. exact Hclick.
Defined.

(** ** Clearing composes *)

Lemma with_isOnRoute_twice (v w : option bool) (a : Address.t) :
  Address.with_isOnRoute w (Address.with_isOnRoute v a) = Address.with_isOnRoute w a.
Proof. reflexivity. Qed.

(** X21: "Clear all points" subsumes "clear route", which is idempotent; a
    route that arrives and is cleared leaves the records as clearing alone
    does, and exactly as they were when none was tagged before. *)
Theorem clearing_composes (route : DirectionsResult) (st : AppState) :
  handleClearRoute (handleClearPoints st) = handleClearPoints st
  ∧ handleClearRoute (handleClearRoute st) = handleClearRoute st
  ∧ handleClearPoints (handleClearRoute st) = handleClearPoints st
  ∧ handleClearRoute (handleRouteCreated route st)
    = setIsCreatingRoute false (handleClearRoute st)
  ∧ (Forall (λ a, Address.isOnRoute a = Some false) (addresses st) →
     addresses (handleClearRoute (handleRouteCreated route st)) = addresses st).
Proof.
  unfold handleClearRoute, handleClearPoints, handleRouteCreated, setHasRoute,
    setCurrentRoute, setAddresses, setMapKey, setIsCreatingRoute. simpl.
  repeat split; try (f_equal; rewrite List.map_map; apply List.map_ext; reflexivity).
  intros Hclean. rewrite List.map_map. apply map_unchanged. intros a Ha.
  rewrite Forall_forall in Hclean. apply list_elem_of_In, Hclean in Ha.
  destruct a. simpl in *. now subst.
Qed.

Lemma clearing_composes_witness :
  Forall (λ a, Address.isOnRoute a = Some false) (addresses ready)
  ∧ addresses (handleClearRoute routed) = addresses ready.
Proof.
  assert (Forall (λ a, Address.isOnRoute a = Some false) (addresses ready)) as Hclean.
  { repeat constructor. }
  split; [exact Hclean|].
  destruct (clearing_composes swapped_route ready) as [_ [_ [_ [_ Hback]]]].
  exact (Hback Hclean).
Defined.

(** ** Invariants of the event loop *)

Lemma step_route_consistent (containsLocation : LatLng → Polygon → bool)
    (ev : Event) (sys sys' : System) (calls : list Call) :
  step containsLocation ev sys = Some (sys', calls) →
  route_consistent (app sys) → route_consistent (app sys').
Proof.
  unfold route_consistent. intros Hstep Hbefore.
  destruct ev; simpl in Hstep;
    unfold handleAddressesParsed, handleClearTable, handleGeocodeAll_begin,
      handleGeocodeAddress_begin, handleGeocodeAddress_settle,
      handleGeocodeAll_settle, handleGeocodeStartingPoint_settle,
      handleGeocodeStartingPoint_begin, autoGeocode_settle, handleAcceptPolygon,
      handleCreateRoute, createRoute_failed, createRoute_settle,
      calculateOptimalRoute_settle in Hstep;
    try destruct (ingest _ _);
    repeat case_match; simplify_eq/=; try congruence; eauto.
  all: unfold createRoute_failed in *; simplify_eq/=; congruence.
Qed.

Lemma run_route_consistent (containsLocation : LatLng → Polygon → bool)
    (events : list Event) :
  ∀ (start sys : System) (calls : list Call),
    route_consistent (app start) →
    run containsLocation events start = Some (sys, calls) →
    route_consistent (app sys).
Proof.
  induction events as [|ev events IH]; intros start sys calls Hstart; simpl.
  - now intros [= <- _].
  - destruct (step containsLocation ev start) as [[sys1 calls1]|] eqn:Hstep;
      [|discriminate]. simpl.
    destruct (run containsLocation events sys1) as [[sys2 calls2]|] eqn:Hrest;
      [|discriminate]. simpl. intros [= <- _].
    apply (IH sys1 sys2 calls2); [|exact Hrest].
    now apply (step_route_consistent containsLocation ev start sys1 calls1).
Qed.

(** X22: In every state that the event loop reaches from the first render, the
    route flag is up exactly when a route is on record; so the workflow is
    active exactly when a route is on record and no request is pending. *)
Theorem route_flag_tracks_the_route
    (containsLocation : LatLng → Polygon → bool) (events : list Event)
    (sys : System) (calls : list Call) :
  run containsLocation events initial_system = Some (sys, calls) →
  (hasRoute (app sys) = true ↔ is_Some (currentRoute (app sys)))
  ∧ (workflow (app sys) = Active
     ↔ is_Some (currentRoute (app sys)) ∧ isCreatingRoute (app sys) = false).
Proof.
  intros Hreached.
  pose proof (run_route_consistent containsLocation events initial_system sys calls
                eq_refl Hreached) as Hrun.
  unfold route_consistent in Hrun. unfold workflow. rewrite Hrun.
  destruct (currentRoute (app sys)) as [route|], (isCreatingRoute (app sys));
    (split; [split|split]); try discriminate; try reflexivity; eauto;
    try (intros [[? ?] ?]; discriminate); try (intros [? ?]; discriminate).
Qed.

Lemma route_flag_tracks_the_route_witness :
  ∃ sys calls,
    run box_contains (selection_changed_while_pending
                      ++ [RouteSettled 0 (Some some_route) "OK"])%list initial_system
    = Some (sys, calls)
    ∧ (workflow (app sys) = Active
       ↔ is_Some (currentRoute (app sys)) ∧ isCreatingRoute (app sys) = false).
Proof.
  destruct (run box_contains (selection_changed_while_pending
                              ++ [RouteSettled 0 (Some some_route) "OK"])%list
                initial_system) as [[sys calls]|] eqn:Hrun;
    [|vm_compute in Hrun; discriminate].
  exists sys, calls. split; [reflexivity|].
  exact (proj2 (route_flag_tracks_the_route box_contains _ sys calls Hrun)).
Defined.

Lemma ids_of_map (f : Address.t → Address.t) (l : list Address.t) :
  (∀ a, Address.id (f a) = Address.id a) →
  List.map Address.id (List.map f l) = List.map Address.id l.
Proof. intros Hf. rewrite List.map_map. now apply List.map_ext. Qed.

Lemma ids_of_apply_geocode (id : string) (result : LatLng) (l : list Address.t) :
  List.map Address.id (apply_geocode id result l) = List.map Address.id l.
Proof.
  apply ids_of_map. intros a. now destruct (strict_eq (Address.id a) id).
Qed.

Lemma ids_of_update (id : string) (updates : Address.partial) (l : list Address.t) :
  Address.p_id updates = None →
  List.map Address.id (update_address id updates l) = List.map Address.id l.
Proof.
  intros Hpatch. apply ids_of_map. intros a.
  destruct (strict_eq (Address.id a) id); simpl; [|reflexivity].
  now rewrite Hpatch.
Qed.

Lemma ids_of_ingest (rows prev store : list Address.t) :
  ingest rows prev = Some store →
  List.map Address.id store = List.map Address.id (prev ++ rows).
Proof.
  unfold ingest. rewrite detectDuplicates_flags. intros [= <-].
  now apply ids_of_map.
Qed.

Lemma NoDup_ids_filter (f : Address.t → bool) (l : list Address.t) :
  NoDup (List.map Address.id l) → NoDup (List.map Address.id (List.filter f l)).
Proof.
  induction l as [|a l IH]; simpl; [auto|].
  intros [Ha Hl]%NoDup_cons. destruct (f a); simpl; [|auto].
  apply NoDup_cons. split; [|auto].
  intros [b [Hid [Hb _]%filter_In]]%list_elem_of_In%in_map_iff.
  apply Ha. rewrite <- Hid. now apply list_elem_of_In, in_map.
Qed.

(** X23: The events of the loop keep the ids of the store unique, provided an
    import brings ids that are new and an edit does not patch the id; every
    event other than an import, an edit, a deletion and "clear table"
    leaves the list of ids as it is. *)
Theorem ids_stay_unique (containsLocation : LatLng → Polygon → bool)
    (ev : Event) (sys sys' : System) (calls : list Call) :
  step containsLocation ev sys = Some (sys', calls) →
  keeps_ids_unique ev sys →
  (NoDup (List.map Address.id (addresses (app sys))) →
   NoDup (List.map Address.id (addresses (app sys'))))
  ∧ match ev with
    | AddressesParsed _ | UpdateAddress _ _ | DeleteAddress _ | ClearTable _ => True
    | _ => List.map Address.id (addresses (app sys'))
           = List.map Address.id (addresses (app sys))
    end.
Proof.
  intros Hstep Hkeeps.
  destruct ev; simpl in Hstep, Hkeeps.
  - unfold handleAddressesParsed in Hstep.
    destruct (ingest _ _) as [store|] eqn:Hingest; [|discriminate].
    simpl in Hstep. injection Hstep as <- _. simpl.
    rewrite (ids_of_ingest _ _ _ Hingest). auto.
  - injection Hstep as <- _. split; [|exact I].
    destruct confirmed; simpl; [intros _; constructor|auto].
  - destruct (addressesToGeocode (addresses (app sys))) as [|addr rest] eqn:Hqueue;
      unfold handleGeocodeAll_begin in Hstep; rewrite Hqueue in Hstep;
      injection Hstep as <- _; auto.
  - injection Hstep as <- _. simpl. rewrite (ids_of_update _ _ _ Hkeeps). auto.
  - injection Hstep as <- _. simpl. split; [|exact I]. apply NoDup_ids_filter.
  - unfold handleGeocodeAddress_begin in Hstep.
    repeat case_match; simplify_eq/=; auto.
  - injection Hstep as <- _. simpl.
    rewrite ids_of_map by reflexivity. auto.
  - destruct (geocodeCalls sys !! k) as [[id|addr rest|[]]|]; simplify_eq/=; auto.
    + destruct outcome; simplify_eq/=; rewrite ?ids_of_apply_geocode; auto.
    + destruct outcome, rest; simplify_eq/=; rewrite ?ids_of_apply_geocode; auto.
    + destruct outcome; simplify_eq/=; auto.
    + destruct outcome; simplify_eq/=; auto.
  - injection Hstep as <- _. auto.
  - injection Hstep as <- _. auto.
  - unfold handleAcceptPolygon in Hstep.
    repeat case_match; simplify_eq/=; auto.
    unfold polygon_complete. rewrite ids_of_map by reflexivity. auto.
  - injection Hstep as <- _. auto.
  - injection Hstep as <- _. auto.
  - unfold handleGeocodeStartingPoint_begin in Hstep.
    repeat case_match; simplify_eq/=; auto.
  - injection Hstep as <- _. auto.
  - unfold handleCreateRoute in Hstep. repeat case_match; simplify_eq/=; auto.
  - unfold createRoute_failed in Hstep. repeat case_match; simplify_eq/=; auto.
  - unfold createRoute_settle, createRoute_failed in Hstep.
    repeat case_match; simplify_eq/=; auto.
    rewrite ids_of_map by reflexivity. auto.
  - injection Hstep as <- _. simpl. rewrite ids_of_map by reflexivity. auto.
  - injection Hstep as <- _. simpl. rewrite ids_of_map by reflexivity. auto.
Qed.

Lemma ids_stay_unique_witness :
  keeps_ids_unique
    (AddressesParsed (parseTabDelimited (steady_clock 1700000000000) pasted_text))
    initial_system
  ∧ ∃ sys',
      step box_contains
        (AddressesParsed (parseTabDelimited (steady_clock 1700000000000) pasted_text))
        initial_system
      = Some (sys', [])
      ∧ NoDup (List.map Address.id (addresses (app sys'))).
Proof.
  assert (keeps_ids_unique
            (AddressesParsed (parseTabDelimited (steady_clock 1700000000000) pasted_text))
            initial_system) as Hnew.
  { apply (bool_decide_unpack
             (NoDup (List.map Address.id
                       (addresses (app initial_system)
                        ++ parseTabDelimited (steady_clock 1700000000000) pasted_text)%list))).
    vm_compute. exact I. }
  split; [exact Hnew|].
  destruct (step box_contains
              (AddressesParsed (parseTabDelimited (steady_clock 1700000000000)
                                                  pasted_text))
              initial_system) as [[sys' calls]|] eqn:Hstep;
    [|vm_compute in Hstep; discriminate].
  assert (calls = []) as -> by (vm_compute in Hstep; congruence).
  exists sys'. split; [reflexivity|].
  apply (ids_stay_unique box_contains _ initial_system sys' [] Hstep Hnew).
  constructor.
Defined.

(** ** The create-route button *)

(** X24: While the create-route button is enabled, the only alert that "create
    route" can raise is the overflow alert: the request goes through with 1
    to 25 records selected and is refused, with the count, beyond 25. *)
Theorem enabled_button_only_overflows (st : AppState) :
  create_route_disabled st = false →
  ((1 ≤ length (selectedAddresses st) ≤ 25)%nat
   ∧ handleCreateRoute st = (setIsCreatingRoute true st, []))
  ∨ ((25 < length (selectedAddresses st))%nat
     ∧ handleCreateRoute st
       = (st, [alert (too_many_addresses_message (length (selectedAddresses st)))])).
Proof.
  unfold create_route_disabled, handleCreateRoute.
  intros Henabled. apply orb_false_elim in Henabled as [Henabled _].
  apply orb_false_elim in Henabled as [Hvalid Hsome].
  rewrite Hvalid. apply negb_false_iff, Nat.ltb_lt in Hsome.
  destruct (Nat.eqb_spec (length (selectedAddresses st)) 0) as [|_]; [lia|].
  destruct (Nat.ltb_spec 25 (length (selectedAddresses st))); [right|left]; split;
    trivial; lia.
Qed.

Lemma enabled_button_only_overflows_witness :
  create_route_disabled crowded = false
  ∧ handleCreateRoute crowded = (crowded, [alert (too_many_addresses_message 26)]).
Proof.
  split; [reflexivity|].
  destruct (enabled_button_only_overflows crowded eq_refl) as [[Hfits _] | [_ Halert]].
  - vm_compute in Hfits. lia.
  - exact Halert.
Defined.
